(** * NarutoRoundCMD: the turn-resolution engine

    A shallow embedding of the battle core of [naruto_battle_system]:
    the entity model ([models/character.py], [models/skill.py],
    [models/status_effect.py], [models/action.py], [models/battle_team.py],
    [models/battle_state.py]) and the controller
    ([controllers/battle_controller.py]).

    Python integers are unbounded, so every [int] field is a [Z];
    [//] is floor division, which is [Z.div] for the positive divisors
    the code uses.  Characters and status effects are Python objects
    that several lists refer to at once (a team roster, the turn order,
    an action's actor and target), so they live in a store and are
    named by reference. *)

From Stdlib Require Import ZArith List Bool String Lia Permutation Sorted.
From Stdlib Require Import DecimalString.
Import ListNotations.
Local Open Scope string_scope.
Local Open Scope Z_scope.

(** ** models/enums.py *)

Inductive ActionType := ATTACK | SKILL | ITEM | PASS | DEFEND.

Inductive StatusEffectType :=
  | BUFF_ATK | BUFF_DEF | BUFF_SPD | DEBUFF_ATK | DEBUFF_DEF | DEBUFF_SPD
  | STUN | FREEZE | DOT | HOT | SHIELD | REFLECT | IMMUNITY.

Definition StatusEffectType_eqb (a b : StatusEffectType) : bool :=
  match a, b with
  | BUFF_ATK, BUFF_ATK | BUFF_DEF, BUFF_DEF | BUFF_SPD, BUFF_SPD
  | DEBUFF_ATK, DEBUFF_ATK | DEBUFF_DEF, DEBUFF_DEF | DEBUFF_SPD, DEBUFF_SPD
  | STUN, STUN | FREEZE, FREEZE | DOT, DOT | HOT, HOT
  | SHIELD, SHIELD | REFLECT, REFLECT | IMMUNITY, IMMUNITY => true
  | _, _ => false
  end.

(** References into the object store. *)
Definition cref := nat.   (* a Character object *)
Definition eref := nat.   (* a StatusEffect object *)
Bind Scope nat_scope with cref eref.

(** [str(n)] for a Python int. *)
Definition str (z : Z) : string := NilZero.string_of_int (Z.to_int z).

(** ** models/skill.py *)

(** The entries of [Skill.effects] are untyped in the source; the
    controller dispatches on their class with [isinstance].  Objects of
    any other class fall through both tests. *)
Inductive Effect :=
  | DamageEffect (base_value scaling : Z)
  | HealingEffect (base_value scaling : Z)
  | OtherEffect.

(** [DamageEffect.calculate_damage] *)
Definition calculate_damage (base_value scaling attacker_attack : Z) : Z :=
  base_value + (attacker_attack * scaling / 100).

(** [HealingEffect.calculate_healing] *)
Definition calculate_healing (base_value scaling caster_stat : Z) : Z :=
  base_value + (caster_stat * scaling / 100).

Module Skill.
Record t := mk {
  name : string;
  description : string;
  cost : Z;
  chakra_cost : Z;
  effects : list Effect
}.

(** [Skill.__post_init__] *)
Definition post_init (s : t) : t :=
  if (0 <? cost s) && (chakra_cost s =? 0)
  then mk (name s) (description s) (cost s) (cost s) (effects s)
  else s.
End Skill.

(** ** models/status_effect.py *)

Module StatusEffect.
Record t := mk {
  name : string;
  description : string;
  effect_type : StatusEffectType;
  value : Z;
  duration : Z;
  source_character_id : option string;
  is_buff : bool
}.

Definition set_duration (d : Z) (e : t) : t :=
  mk (name e) (description e) (effect_type e) (value e) d
     (source_character_id e) (is_buff e).

(** The [__eq__] a dataclass generates: field by field. *)
Definition eqb (a b : t) : bool :=
  String.eqb (name a) (name b)
  && String.eqb (description a) (description b)
  && StatusEffectType_eqb (effect_type a) (effect_type b)
  && (value a =? value b)
  && (duration a =? duration b)
  && match source_character_id a, source_character_id b with
     | None, None => true
     | Some x, Some y => String.eqb x y
     | _, _ => false
     end
  && Bool.eqb (is_buff a) (is_buff b).
End StatusEffect.

(** ** models/character.py *)

Module Character.
(** The fields the engine reads or writes.  The dataclass has further
    fields (crit rate, position, chase states, tags, ...) that no
    function below touches.  [status_effects] lists references: the
    effect objects are shared through the store, while the list itself
    belongs to its character, as the dataclass default makes it. *)
Record t := mk {
  name : string;
  hp : Z;
  max_hp : Z;
  chakra : Z;
  max_chakra : Z;
  attack : Z;
  defense : Z;
  speed : Z;
  id : string;
  skills : list Skill.t;
  status_effects : list eref;
  is_alive : bool;
  chakra_regen : Z;
  is_player_controlled : bool;
  current_hp : Z
}.

Definition set_hp (v : Z) (c : t) : t :=
  mk (name c) v (max_hp c) (chakra c) (max_chakra c) (attack c) (defense c)
     (speed c) (id c) (skills c) (status_effects c) (is_alive c)
     (chakra_regen c) (is_player_controlled c) (current_hp c).

Definition set_chakra (v : Z) (c : t) : t :=
  mk (name c) (hp c) (max_hp c) v (max_chakra c) (attack c) (defense c)
     (speed c) (id c) (skills c) (status_effects c) (is_alive c)
     (chakra_regen c) (is_player_controlled c) (current_hp c).

Definition set_status_effects (v : list eref) (c : t) : t :=
  mk (name c) (hp c) (max_hp c) (chakra c) (max_chakra c) (attack c)
     (defense c) (speed c) (id c) (skills c) v (is_alive c)
     (chakra_regen c) (is_player_controlled c) (current_hp c).

Definition set_is_alive (v : bool) (c : t) : t :=
  mk (name c) (hp c) (max_hp c) (chakra c) (max_chakra c) (attack c)
     (defense c) (speed c) (id c) (skills c) (status_effects c) v
     (chakra_regen c) (is_player_controlled c) (current_hp c).

Definition set_current_hp (v : Z) (c : t) : t :=
  mk (name c) (hp c) (max_hp c) (chakra c) (max_chakra c) (attack c)
     (defense c) (speed c) (id c) (skills c) (status_effects c) (is_alive c)
     (chakra_regen c) (is_player_controlled c) v.

(** [Character.__post_init__]: what the constructor does to the
    fields it was given. *)
Definition post_init (c : t) : t :=
  let c1 :=
    if 0 <? hp c then set_current_hp (hp c) c
    else set_hp (max_hp c) (set_current_hp (max_hp c) c) in
  if max_hp c1 <? current_hp c1
  then set_hp (max_hp c1) (set_current_hp (max_hp c1) c1)
  else c1.

(** [Character.take_damage]: the new character and the returned
    [actual_damage]. *)
Definition take_damage (amount : Z) (c : t) : t * Z :=
  if negb (is_alive c) then (c, 0)
  else
    let actual_damage := Z.min (current_hp c) amount in
    let c1 := set_current_hp (current_hp c - actual_damage) c in
    let c2 := set_hp (current_hp c1) c1 in
    let c3 :=
      if current_hp c2 <=? 0
      then set_hp 0 (set_current_hp 0 (set_is_alive false c2))
      else c2 in
    (c3, actual_damage).

(** [Character.heal]: the new character and the returned amount. *)
Definition heal (amount : Z) (c : t) : t * Z :=
  if negb (is_alive c) then (c, 0)
  else
    let old_hp := current_hp c in
    let c1 := set_current_hp (Z.min (max_hp c) (current_hp c + amount)) c in
    let c2 := set_hp (current_hp c1) c1 in
    (c2, current_hp c2 - old_hp).
End Character.

(** ** models/battle_team.py, models/battle_state.py *)

Module BattleTeam.
Record t := mk {
  name : string;
  player_id : string;
  characters : list cref
}.
End BattleTeam.

Module BattleState.
(** The fields the controller uses. *)
Record t := mk {
  team_a : BattleTeam.t;
  team_b : BattleTeam.t;
  current_round : Z;
  turn_order : list cref;
  current_character_index : Z
}.
End BattleState.

(** ** models/action.py *)

Module Action.
Record t := mk {
  character : cref;
  action_type : ActionType;
  target : option cref;
  skill : option Skill.t
}.
End Action.

Module ActionResult.
(** [message] is the attribute that [_execute_item] creates on the
    object; the dataclass itself declares [messages] only. *)
Record t := mk {
  action : Action.t;
  success : bool;
  messages : list string;
  message : option string
}.

(** [ActionResult(action)] *)
Definition new (a : Action.t) : t := mk a true [] None.

Definition set_success (b : bool) (r : t) : t :=
  mk (action r) b (messages r) (message r).

Definition set_message (m : string) (r : t) : t :=
  mk (action r) (success r) (messages r) (Some m).

(** [ActionResult.add_message] *)
Definition add_message (m : string) (r : t) : t :=
  mk (action r) (success r) (messages r ++ [m]) (message r).
End ActionResult.

(** ** interfaces/battle_interfaces.py: the calls an [IBattleEvents]
    listener receives *)

Inductive Event :=
  | on_battle_start
  | on_round_start
  | on_turn_start (character : cref)
  | on_turn_end (character : cref)
  | on_turn_skipped (character : cref)
  | on_action_executed (result : ActionResult.t)
  | on_battle_end
  | on_effect_triggered (character : cref) (effect : eref) (value : Z)
  | on_status_effect_removed (character : cref) (effect : eref).

(** ** The object store and the controller's own state *)

Record World := mkWorld {
  chars : cref -> Character.t;          (* every Character object *)
  effs : eref -> StatusEffect.t;        (* every StatusEffect object *)
  battle_state : BattleState.t;         (* BattleController.battle_state *)
  events : list Event;                  (* calls made on .events, oldest first *)
  action_queue : list Action.t          (* BattleController._action_queue *)
}.

Definition upd {A : Type} (f : nat -> A) (r : nat) (v : A) : nat -> A :=
  fun r' => if Nat.eqb r' r then v else f r'.

Definition set_char (r : cref) (c : Character.t) (w : World) : World :=
  mkWorld (upd (chars w) r c) (effs w) (battle_state w) (events w)
          (action_queue w).

Definition set_eff (r : eref) (e : StatusEffect.t) (w : World) : World :=
  mkWorld (chars w) (upd (effs w) r e) (battle_state w) (events w)
          (action_queue w).

Definition set_battle_state (b : BattleState.t) (w : World) : World :=
  mkWorld (chars w) (effs w) b (events w) (action_queue w).

Definition set_action_queue (q : list Action.t) (w : World) : World :=
  mkWorld (chars w) (effs w) (battle_state w) (events w) q.

Definition emit (ev : Event) (w : World) : World :=
  mkWorld (chars w) (effs w) (battle_state w) (events w ++ [ev])
          (action_queue w).

(** An exception leaving a method is [None]. *)
Notation "x <- c1 ;; c2" :=
  (match c1 with Some x => c2 | None => None end)
  (at level 61, c1 at next level, right associativity).
Notation "' pat <- c1 ;; c2" :=
  (match c1 with Some pat => c2 | None => None end)
  (at level 61, pat pattern, c1 at next level, right associativity).

(** ** Python built-ins *)

(** [list.remove(x)]: drop the first item that compares equal to [x];
    [ValueError] when there is none. *)
Fixpoint list_remove {A : Type} (same : A -> bool) (l : list A)
  : option (list A) :=
  match l with
  | [] => None
  | y :: t => if same y then Some t
              else t' <- list_remove same t ;; Some (y :: t')
  end.

Fixpoint set_nth {A : Type} (i : nat) (x : A) (l : list A) : list A :=
  match l, i with
  | [], _ => []
  | _ :: t, O => x :: t
  | h :: t, S i' => h :: set_nth i' x t
  end.

(** [x[i], x[j] = x[j], x[i]]; both indices are in range wherever the
    engine swaps. *)
Definition swap {A : Type} (i j : nat) (x : list A) : list A :=
  match nth_error x i, nth_error x j with
  | Some xi, Some xj => set_nth j xi (set_nth i xj x)
  | _, _ => x
  end.

(** [any(p(c) for c in l)] *)
Definition any {A : Type} (p : A -> bool) (l : list A) : bool := existsb p l.

(** [list.sort(key=..., reverse=True)]: a stable sort, so the result is
    the one list that is in non-increasing key order and keeps items of
    equal key in their original order.  Insertion from the right
    computes it. *)
Fixpoint insert_desc {A : Type} (key : A -> Z) (x : A) (l : list A) : list A :=
  match l with
  | [] => [x]
  | y :: t => if key x <? key y then y :: insert_desc key x t
              else x :: y :: t
  end.

Definition sort_desc {A : Type} (key : A -> Z) (l : list A) : list A :=
  fold_right (insert_desc key) [] l.

(** Non-increasing key order. *)
Definition by_key_desc {A : Type} (key : A -> Z) (a b : A) : Prop :=
  key b <= key a.

(** The [random] module: its generator state and [_randbelow]. *)
Class RandomSource (G : Type) := {
  randbelow : G -> nat -> nat * G;
  randbelow_lt : forall g n, (0 < n)%nat -> (fst (randbelow g n) < n)%nat
}.

Section Random.
Context {G : Type} `{RandomSource G}.

(** [random.shuffle]: for i in reversed(range(1, len(x))), swap x[i]
    with x[randbelow(i+1)]. *)
Fixpoint shuffle_from {A : Type} (i : nat) (g : G) (x : list A)
  : list A * G :=
  match i with
  | O => (x, g)
  | S i' => let (j, g') := randbelow g (S i) in
            shuffle_from i' g' (swap i j x)
  end.

Definition shuffle {A : Type} (g : G) (x : list A) : list A * G :=
  shuffle_from (List.length x - 1) g x.
End Random.

(** ** controllers/battle_controller.py *)

(** The battle state holds two team objects; a method that returns one
    of them is modelled as returning which. *)
Inductive TeamSlot := TEAM_A | TEAM_B.

Definition team_of (s : TeamSlot) (b : BattleState.t) : BattleTeam.t :=
  match s with
  | TEAM_A => BattleState.team_a b
  | TEAM_B => BattleState.team_b b
  end.

Definition alive (w : World) (c : cref) : bool := Character.is_alive (chars w c).

(** [BattleController.is_battle_over] *)
Definition is_battle_over (w : World) : bool :=
  let team_a_alive :=
    any (alive w) (BattleTeam.characters (BattleState.team_a (battle_state w))) in
  let team_b_alive :=
    any (alive w) (BattleTeam.characters (BattleState.team_b (battle_state w))) in
  negb (team_a_alive && team_b_alive).

(** [BattleController.get_winning_team] *)
Definition get_winning_team (w : World) : option TeamSlot :=
  if negb (is_battle_over w) then None
  else
    let team_a_alive :=
      any (alive w) (BattleTeam.characters (BattleState.team_a (battle_state w))) in
    if team_a_alive then Some TEAM_A else Some TEAM_B.

(** [BattleController.get_current_character] *)
Definition get_current_character (w : World) : option cref :=
  let b := battle_state w in
  if (BattleState.current_character_index b <? 0)
     || (Z.of_nat (List.length (BattleState.turn_order b))
           <=? BattleState.current_character_index b)
  then None
  else nth_error (BattleState.turn_order b)
                 (Z.to_nat (BattleState.current_character_index b)).

(** *** [_process_turn_based_effects] *)

(** One iteration of the first loop, over [character.status_effects]. *)
Definition tick_effect (character : cref) (acc : World * list eref)
  (effect : eref) : World * list eref :=
  let (w, effects_to_remove) := acc in
  let w1 :=
    if 0 <? StatusEffect.duration (effs w effect)
    then set_eff effect
           (StatusEffect.set_duration
              (StatusEffect.duration (effs w effect) - 1) (effs w effect)) w
    else w in
  let w2 :=
    match StatusEffect.effect_type (effs w1 effect) with
    | DOT =>
        let damage := StatusEffect.value (effs w1 effect) in
        let c := chars w1 character in
        emit (on_effect_triggered character effect damage)
          (set_char character
             (Character.set_hp (Z.max 0 (Character.hp c - damage)) c) w1)
    | HOT =>
        let healing := StatusEffect.value (effs w1 effect) in
        let c := chars w1 character in
        emit (on_effect_triggered character effect healing)
          (set_char character
             (Character.set_hp
                (Z.min (Character.max_hp c) (Character.hp c + healing)) c) w1)
    | _ => w1
    end in
  if StatusEffect.duration (effs w2 effect) =? 0
  then (w2, (effects_to_remove ++ [effect])%list)
  else (w2, effects_to_remove).

(** One iteration of the second loop, over [effects_to_remove]. *)
Definition remove_effect (character : cref) (acc : option World)
  (effect : eref) : option World :=
  w <- acc ;;
  l <- list_remove (fun e => StatusEffect.eqb (effs w e) (effs w effect))
         (Character.status_effects (chars w character)) ;;
  Some (emit (on_status_effect_removed character effect)
          (set_char character
             (Character.set_status_effects l (chars w character)) w)).

Definition process_turn_based_effects (character : cref) (w : World)
  : option World :=
  let (w1, effects_to_remove) :=
    fold_left (tick_effect character)
      (Character.status_effects (chars w character)) (w, []) in
  fold_left (remove_effect character) effects_to_remove (Some w1).

(** *** [_execute_attack], [_execute_skill], [_execute_item] *)

Definition execute_attack (action : Action.t) (result : ActionResult.t)
  (w : World) : World * ActionResult.t :=
  let attacker := Action.character action in
  let no_target :=
    (w, ActionResult.add_message
          (Character.name (chars w attacker) ++ "的攻击没有有效目标")%string
          (ActionResult.set_success false result)) in
  match Action.target action with
  | None => no_target
  | Some target =>
      if negb (alive w target) then no_target
      else
        let base_damage :=
          Character.attack (chars w attacker)
          - Character.defense (chars w target) / 2 in
        let damage := Z.max 1 base_damage in
        let (t', actual_damage) :=
          Character.take_damage damage (chars w target) in
        let w1 := set_char target t' w in
        let r1 :=
          ActionResult.add_message
            (Character.name (chars w1 attacker) ++ "攻击了"
             ++ Character.name (chars w1 target) ++ "，造成了"
             ++ str actual_damage ++ "点伤害")%string
            (ActionResult.set_success true result) in
        let r2 :=
          if negb (alive w1 target)
          then ActionResult.add_message
                 (Character.name (chars w1 target) ++ "被击败了")%string r1
          else r1 in
        (w1, r2)
  end.

(** [_apply_skill_effect] *)
Definition apply_skill_effect (caster target : cref)
  (acc : World * ActionResult.t) (effect : Effect) : World * ActionResult.t :=
  let (w, result) := acc in
  match effect with
  | DamageEffect base_value scaling =>
      let damage :=
        calculate_damage base_value scaling
          (Character.attack (chars w caster)) in
      let (t', actual_damage) :=
        Character.take_damage damage (chars w target) in
      let w1 := set_char target t' w in
      let r1 :=
        ActionResult.add_message
          (Character.name (chars w1 caster) ++ "的技能对"
           ++ Character.name (chars w1 target) ++ "造成了"
           ++ str actual_damage ++ "点伤害")%string result in
      let r2 :=
        if negb (alive w1 target)
        then ActionResult.add_message
               (Character.name (chars w1 target) ++ "被击败了")%string r1
        else r1 in
      (w1, r2)
  | HealingEffect base_value scaling =>
      let healing :=
        calculate_healing base_value scaling
          (Character.attack (chars w caster)) in
      let (t', actual_healing) := Character.heal healing (chars w target) in
      let w1 := set_char target t' w in
      (w1,
       ActionResult.add_message
         (Character.name (chars w1 caster) ++ "的技能为"
          ++ Character.name (chars w1 target) ++ "恢复了"
          ++ str actual_healing ++ "点生命值")%string result)
  | OtherEffect => (w, result)
  end.

(** The [cost] that [_execute_skill] computes; [hasattr(skill, 'cost')]
    holds of every [Skill]. *)
Definition skill_cost (skill : Skill.t) : Z :=
  if 0 <? Skill.cost skill then Skill.cost skill else Skill.chakra_cost skill.

(** The chakra deduction of [_execute_skill]. *)
Definition pay_cost (caster : cref) (cost : Z) (w : World) : World :=
  if 0 <? cost
  then set_char caster
         (Character.set_chakra
            (Z.max 0 (Character.chakra (chars w caster) - cost))
            (chars w caster)) w
  else w.

Definition execute_skill (action : Action.t) (result : ActionResult.t)
  (w : World) : World * ActionResult.t :=
  let caster := Action.character action in
  match Action.skill action with
  | None =>
      (w, ActionResult.add_message
            (Character.name (chars w caster)
             ++ "尝试使用技能，但没有指定技能")%string
            (ActionResult.set_success false result))
  | Some skill =>
      let no_target :=
        (w, ActionResult.add_message
              (Character.name (chars w caster) ++ "的" ++ Skill.name skill
               ++ "没有有效目标")%string
              (ActionResult.set_success false result)) in
      match Action.target action with
      | None => no_target
      | Some target =>
          if negb (alive w target) then no_target
          else
            let cost := skill_cost skill in
            let w1 := pay_cost caster cost w in
            let (w2, r2) :=
              fold_left (apply_skill_effect caster target)
                (Skill.effects skill) (w1, result) in
            (w2,
             ActionResult.add_message
               (Character.name (chars w2 caster) ++ "对"
                ++ Character.name (chars w2 target) ++ "使用了"
                ++ Skill.name skill)%string
               (ActionResult.set_success true r2))
      end
  end.

Definition execute_item (action : Action.t) (result : ActionResult.t)
  (w : World) : World * ActionResult.t :=
  (w, ActionResult.set_message "道具系统尚未实现"
        (ActionResult.set_success false result)).

(** The dispatch at the head of [execute_action]. *)
Definition resolve (action : Action.t) (w : World) : World * ActionResult.t :=
  let result := ActionResult.new action in
  match Action.action_type action with
  | ATTACK => execute_attack action result w
  | SKILL => execute_skill action result w
  | ITEM => execute_item action result w
  | PASS => (w, ActionResult.set_success true result)
  | DEFEND => (w, result)
  end.

Section Rounds.
Context {G : Type} `{RandomSource G}.

(** The first loop of [_calculate_turn_order]. *)
Definition collect_alive (w : World) : list cref :=
  flat_map (fun team => filter (alive w) (BattleTeam.characters team))
    [BattleState.team_a (battle_state w); BattleState.team_b (battle_state w)].

(** [_calculate_turn_order] *)
Definition calculate_turn_order (g : G) (w : World) : World * G :=
  let all_characters := collect_alive w in
  let (shuffled, g') := shuffle g all_characters in
  let sorted := sort_desc (fun c => Character.speed (chars w c)) shuffled in
  let b := battle_state w in
  let w1 :=
    set_battle_state
      (BattleState.mk (BattleState.team_a b) (BattleState.team_b b)
         (BattleState.current_round b) sorted 0) w in
  match sorted with
  | first :: _ => (emit (on_turn_start first) w1, g')
  | [] => (w1, g')
  end.

(** The body of the inner loop of [_prepare_new_round]. *)
Definition round_start_character (acc : option World) (character : cref)
  : option World :=
  w <- acc ;;
  if negb (alive w character) then Some w
  else
    let c := chars w character in
    let w1 :=
      set_char character
        (Character.set_chakra
           (Z.min (Character.chakra c + Character.chakra_regen c)
                  (Character.max_chakra c)) c) w in
    process_turn_based_effects character w1.

(** [_prepare_new_round]; [reset_round_data] does nothing. *)
Definition prepare_new_round (g : G) (w : World) : option (World * G) :=
  let b := battle_state w in
  let w1 :=
    set_battle_state
      (BattleState.mk (BattleState.team_a b) (BattleState.team_b b)
         (BattleState.current_round b + 1) (BattleState.turn_order b)
         (BattleState.current_character_index b)) w in
  w2 <- fold_left
          (fun acc team =>
             fold_left round_start_character (BattleTeam.characters team) acc)
          [BattleState.team_a (battle_state w1);
           BattleState.team_b (battle_state w1)]
          (Some w1) ;;
  Some (calculate_turn_order g (emit on_round_start w2)).

(** [start_battle] *)
Definition start_battle (g : G) (w : World) : option (World * G) :=
  prepare_new_round g (emit on_battle_start w).

(** [next_turn]: the world, the generator and the returned flag. *)
Definition next_turn (g : G) (w : World) : option (World * G * bool) :=
  if is_battle_over w then Some (emit on_battle_end w, g, true)
  else
    let w1 :=
      match get_current_character w with
      | Some current_character => emit (on_turn_end current_character) w
      | None => w
      end in
    let b := battle_state w1 in
    let w2 :=
      set_battle_state
        (BattleState.mk (BattleState.team_a b) (BattleState.team_b b)
           (BattleState.current_round b) (BattleState.turn_order b)
           (BattleState.current_character_index b + 1)) w1 in
    if Z.of_nat (List.length (BattleState.turn_order (battle_state w2)))
         <=? BattleState.current_character_index (battle_state w2)
    then
      '(w3, g') <- prepare_new_round g w2 ;;
      Some (w3, g', false)
    else
      match get_current_character w2 with
      | Some next_character =>
          Some (emit (on_turn_start next_character) w2, g, false)
      | None => Some (w2, g, false)
      end.

(** [execute_action] up to its battle-over check: the resolution, the
    [on_action_executed] call and whether the battle ended. *)
Definition execute_one (action : Action.t) (w : World) : World * bool :=
  let (w1, result) := resolve action w in
  let w2 := emit (on_action_executed result) w1 in
  if is_battle_over w2 then (emit on_battle_end w2, true) else (w2, false).

(** The rest of [execute_action]: [_process_combo_actions] does
    nothing, so the queue only shrinks; each queued action is popped
    and executed in turn, and [next_turn] follows the last one. *)
Fixpoint drain_queue (queue : list Action.t) (g : G) (w : World)
  : option (World * G * bool) :=
  match queue with
  | [] => next_turn g w
  | next_action :: rest =>
      let (w1, over) := execute_one next_action (set_action_queue rest w) in
      if over then Some (w1, g, true) else drain_queue rest g w1
  end.

(** [execute_action] *)
Definition execute_action (action : Action.t) (g : G) (w : World)
  : option (World * G * bool) :=
  let (w1, over) := execute_one action w in
  if over then Some (w1, g, true) else drain_queue (action_queue w1) g w1.
End Rounds.

(** ** models/character.py: [clone] and the chase states *)

(** [Character.clone]: a new [Character] built from the fields of the
    old one, so [__post_init__] runs again.  The call passes neither
    [id] nor [traits], which therefore take their defaults; the lists
    are passed as they are (the clone refers to the same effect
    objects). *)
Definition clone (c : Character.t) : Character.t :=
  Character.post_init
    (Character.mk (Character.name c) (Character.hp c) (Character.max_hp c)
       (Character.chakra c) (Character.max_chakra c) (Character.attack c)
       (Character.defense c) (Character.speed c) ""
       (Character.skills c) (Character.status_effects c)
       (Character.is_alive c) (Character.chakra_regen c)
       (Character.is_player_controlled c) (Character.current_hp c)).

Inductive ChaseState := NONE | SMALL_FLOAT | BIG_FLOAT | KNOCKDOWN | REPEL.

Definition ChaseState_eqb (a b : ChaseState) : bool :=
  match a, b with
  | NONE, NONE | SMALL_FLOAT, SMALL_FLOAT | BIG_FLOAT, BIG_FLOAT
  | KNOCKDOWN, KNOCKDOWN | REPEL, REPEL => true
  | _, _ => false
  end.

(** [Character.current_states], a set of chase states, as its
    membership test; the four methods below read and write this field
    only. *)
Definition ChaseStates := ChaseState -> bool.

(** [is_affected_by_chase_state] *)
Definition is_affected_by_chase_state (state : ChaseState)
  (current_states : ChaseStates) : bool :=
  current_states state.

(** [add_chase_state] *)
Definition add_chase_state (state : ChaseState) (current_states : ChaseStates)
  : ChaseStates :=
  if negb (ChaseState_eqb state NONE)
  then fun s => ChaseState_eqb s state || current_states s
  else current_states.

(** [remove_chase_state] *)
Definition remove_chase_state (state : ChaseState)
  (current_states : ChaseStates) : ChaseStates :=
  if current_states state
  then fun s => negb (ChaseState_eqb s state) && current_states s
  else current_states.

(** [clear_chase_states] *)
Definition clear_chase_states (current_states : ChaseStates) : ChaseStates :=
  fun _ => false.

(** ** models/status_effect.py: [ActiveStatusEffect] *)

Module ActiveStatusEffect.
Record t := mk {
  definition_id : string;
  source_character_id : string;
  target_character_id : string;
  remaining_turns : Z;
  current_stacks : Z;
  applied_turn : Z;
  unique_id : string
}.

Definition set_remaining_turns (v : Z) (e : t) : t :=
  mk (definition_id e) (source_character_id e) (target_character_id e) v
     (current_stacks e) (applied_turn e) (unique_id e).

Definition set_current_stacks (v : Z) (e : t) : t :=
  mk (definition_id e) (source_character_id e) (target_character_id e)
     (remaining_turns e) v (applied_turn e) (unique_id e).

(** [reduce_duration]: the effect afterwards and the returned flag. *)
Definition reduce_duration (turns : Z) (e : t) : t * bool :=
  if remaining_turns e <=? 0 then (e, false)
  else
    let e' := set_remaining_turns (remaining_turns e - turns) e in
    (e', remaining_turns e' <=? 0).

(** [add_stacks]; [max_stacks] is the constant 1 in the source. *)
Definition add_stacks (stacks : Z) (e : t) : t * Z :=
  let max_stacks := 1 in
  let e' := set_current_stacks (Z.min max_stacks (current_stacks e + stacks)) e in
  (e', current_stacks e').

(** [is_expired] *)
Definition is_expired (e : t) : bool := remaining_turns e <=? 0.

(** [refresh_duration] *)
Definition refresh_duration (duration : option Z) (e : t) : t :=
  match duration with
  | Some d => set_remaining_turns d e
  | None => e
  end.
End ActiveStatusEffect.

(** ** models/battle_state.py: the cursor of [BattleSession] *)

(** [l[i]] for a Python int [i]: a negative index counts from the end,
    and [IndexError] is [None]. *)
Definition getitem {A : Type} (l : list A) (i : Z) : option A :=
  if 0 <=? i then nth_error l (Z.to_nat i)
  else if - Z.of_nat (List.length l) <=? i
       then nth_error l (Z.to_nat (Z.of_nat (List.length l) + i))
       else None.

Module BattleSession.
(** The two fields the cursor methods use. *)
Record t := mk {
  turn_order : list string;
  current_actor_index : Z
}.

(** [get_current_actor_id] *)
Definition get_current_actor_id (s : t) : option string :=
  if (0 <=? current_actor_index s)
     && (current_actor_index s <? Z.of_nat (List.length (turn_order s)))
  then getitem (turn_order s) (current_actor_index s)
  else None.

(** [get_next_actor_id]; the outer [None] is an [IndexError]. *)
Definition get_next_actor_id (s : t) : option (option string) :=
  let next_index := current_actor_index s + 1 in
  if next_index <? Z.of_nat (List.length (turn_order s))
  then x <- getitem (turn_order s) next_index ;; Some (Some x)
  else Some None.

(** [advance_actor]: the session afterwards and the returned flag. *)
Definition advance_actor (s : t) : t * bool :=
  let s' := mk (turn_order s) (current_actor_index s + 1) in
  (s', current_actor_index s' <? Z.of_nat (List.length (turn_order s'))).
End BattleSession.

(** ** controllers/battle_controller.py: the turn loop *)

(** [_is_character_disabled] *)
Definition is_character_disabled (w : World) (character : cref) : bool :=
  existsb
    (fun effect =>
       StatusEffectType_eqb (StatusEffect.effect_type (effs w effect)) STUN
       || StatusEffectType_eqb (StatusEffect.effect_type (effs w effect)) FREEZE)
    (Character.status_effects (chars w character)).

(** [min(first :: rest, key=...)]: the first item of least key. *)
Fixpoint min_from {A : Type} (key : A -> Z) (best : A) (rest : list A) : A :=
  match rest with
  | [] => best
  | x :: t => min_from key (if key x <? key best then x else best) t
  end.

Section Turns.
Context {G : Type} `{RandomSource G}.

(** [a == b] on two [Character] objects: true of an object and itself,
    and otherwise the field-by-field comparison that the dataclass
    generates, which also reads the fields left out of [Character.t]. *)
Variable same_character : World -> cref -> cref -> bool.

(** [character in l] *)
Definition contains (w : World) (character : cref) (l : list cref) : bool :=
  existsb (fun member => same_character w member character) l.

(** [random.choice(seq)]: [seq[randbelow(len(seq))]]. *)
Definition choice {A : Type} (g : G) (seq : list A) : option (A * G) :=
  let (i, g') := randbelow g (List.length seq) in
  x <- nth_error seq i ;; Some (x, g').

(** [_generate_ai_action] *)
Definition generate_ai_action (character : cref) (g : G) (w : World)
  : option (Action.t * G) :=
  let b := battle_state w in
  let enemy_team :=
    if contains w character (BattleTeam.characters (BattleState.team_b b))
    then BattleState.team_a b else BattleState.team_b b in
  let targets := filter (alive w) (BattleTeam.characters enemy_team) in
  match targets with
  | [] => Some (Action.mk character PASS None None, g)
  | first :: rest =>
      let target := min_from (fun c => Character.hp (chars w c)) first rest in
      let available_skills :=
        filter (fun skill =>
                  Skill.cost skill <=? Character.chakra (chars w character))
          (Character.skills (chars w character)) in
      match available_skills with
      | _ :: _ =>
          '(skill, g') <- choice g available_skills ;;
          Some (Action.mk character SKILL (Some target) (Some skill), g')
      | [] => Some (Action.mk character ATTACK (Some target) None, g)
      end
  end.

(** [process_turn].  It calls itself after preparing a round; [depth]
    is the room left on the call stack, and running out of it is the
    [RecursionError]. *)
Fixpoint process_turn (depth : nat) (g : G) (w : World)
  : option (World * G * bool) :=
  match depth with
  | O => None
  | S depth' =>
      if is_battle_over w then Some (emit on_battle_end w, g, true)
      else
        match get_current_character w with
        | None =>
            '(w1, g1) <- prepare_new_round g w ;;
            process_turn depth' g1 w1
        | Some current_character =>
            if is_character_disabled w current_character
            then next_turn g (emit (on_turn_skipped current_character) w)
            else if negb (Character.is_player_controlled
                            (chars w current_character))
            then
              '(action, g1) <- generate_ai_action current_character g w ;;
              execute_action action g1 w
            else Some (w, g, false)
        end
  end.
End Turns.

(** [is_battle_ended] *)
Definition is_battle_ended (w : World) : bool := is_battle_over w.

(** ** Test fixtures *)

(** A deterministic stand-in for a seeded generator: the state is a
    counter, and [randbelow] reduces it modulo the bound. *)
#[export] Instance counter_source : RandomSource nat := {|
  randbelow := fun g n => (Nat.modulo g n, S g);
  randbelow_lt := fun g n Hn =>
    Nat.mod_upper_bound g n (proj2 (Nat.neq_0_lt_0 n) Hn)
|}.

(** [Character(name=..., hp=..., ...)] with the dataclass defaults for
    the remaining fields. *)
Definition new_character (name : string)
  (hp max_hp chakra max_chakra attack defense speed : Z) : Character.t :=
  Character.post_init
    (Character.mk name hp max_hp chakra max_chakra attack defense speed
       "" [] [] true 10 false 0).

(** The two characters of tests/test_battle.py. *)
Definition character1 : Character.t :=
  new_character "测试角色1" 100 100 100 100 50 30 50.
Definition character2 : Character.t :=
  new_character "测试角色2" 100 100 100 100 40 40 40.

Definition no_effect : StatusEffect.t :=
  StatusEffect.mk "" "" BUFF_ATK 0 0 None false.

(** A store with [cs] at references 0, 1, ... and [es] likewise. *)
Definition store_of {A : Type} (d : A) (l : list A) : nat -> A :=
  fun r => nth r l d.

Definition world_of (cs : list Character.t) (es : list StatusEffect.t)
  (team_a team_b : list cref) : World :=
  mkWorld (store_of character2 cs) (store_of no_effect es)
    (BattleState.mk (BattleTeam.mk "队伍A" "player1" team_a)
       (BattleTeam.mk "队伍B" "player2" team_b) 0 [] 0)
    [] [].

(** What tests/test_battle.py does to defeat a character by hand. *)
Definition defeated (c : Character.t) : Character.t :=
  Character.set_is_alive false (Character.set_hp 0 c).

(** Both sides wiped out. *)
Definition wiped_world : World :=
  world_of [defeated character1; defeated character2] [] [0%nat] [1%nat].

(** [character2] carrying a two-round poison of 50 per round. *)
Definition poison : StatusEffect.t :=
  StatusEffect.mk "毒" "持续伤害" DOT 50 2 None false.

Definition poisoned_world : World :=
  world_of [character1; Character.set_status_effects [0%nat] character2]
    [poison] [0%nat] [1%nat].

(** A character at 10 hp carrying a poison of 10 per round. *)
Definition weak_poison : StatusEffect.t :=
  StatusEffect.mk "毒" "持续伤害" DOT 10 2 None false.

Definition dying_world : World :=
  world_of
    [character1;
     Character.set_status_effects [0%nat]
       (new_character "测试角色2" 10 100 100 100 40 40 40)]
    [weak_poison] [0%nat] [1%nat].

(** Team A's only member at 10 hp carrying the poison of 10, facing a
    team B at full hp. *)
Definition fading_team_a_world : World :=
  world_of
    [Character.set_status_effects [0%nat]
       (new_character "测试角色1" 10 100 100 100 50 30 50);
     character2]
    [weak_poison] [0%nat] [1%nat].

(** [character1] attacks [character2]. *)
Definition attack_action : Action.t :=
  Action.mk 0%nat ATTACK (Some 1%nat) None.

(** The skill of tests/test_battle.py, and a caster who cannot afford
    it. *)
Definition test_skill : Skill.t :=
  Skill.post_init (Skill.mk "测试技能" "用于测试的技能" 20 0 [DamageEffect 20 50]).

Definition skill_action : Action.t :=
  Action.mk 0%nat SKILL (Some 1%nat) (Some test_skill).

Definition low_chakra_world : World :=
  world_of [Character.set_chakra 10 character1; character2] []
    [0%nat] [1%nat].

(** [character2] carrying a one-round stun and a two-round attack
    buff. *)
Definition stun : StatusEffect.t :=
  StatusEffect.mk "眩晕" "无法行动" STUN 0 1 None false.
Definition attack_up : StatusEffect.t :=
  StatusEffect.mk "攻击提升" "攻击提升" BUFF_ATK 20 2 None true.

Definition two_effects_world : World :=
  world_of [character1; Character.set_status_effects [0%nat; 1%nat] character2]
    [stun; attack_up] [0%nat] [1%nat].

(** The setup of tests/test_battle.py. *)
Definition test_world : World :=
  world_of [character1; character2] [] [0%nat] [1%nat].

(** Two characters of equal speed facing each other. *)
Definition tie_world : World :=
  world_of [character1; new_character "测试角色3" 100 100 100 100 40 40 50] []
    [0%nat] [1%nat].

(** Team A defeated, team B standing. *)
Definition team_a_fallen_world : World :=
  world_of [defeated character1; character2] [] [0%nat] [1%nat].

(** ** views/battle_view.py *)

(** The winner that [BattleView.on_battle_end] works out for its
    banner; [None] is announced as a draw. *)
Definition battle_view_winner (w : World) : option TeamSlot :=
  let team_a_alive :=
    any (alive w) (BattleTeam.characters (BattleState.team_a (battle_state w))) in
  let team_b_alive :=
    any (alive w) (BattleTeam.characters (BattleState.team_b (battle_state w))) in
  if team_a_alive && negb team_b_alive then Some TEAM_A
  else if team_b_alive && negb team_a_alive then Some TEAM_B
  else None.

(** ** The invariants of the data model *)

Definition alive_iff_hp (c : Character.t) : Prop :=
  Character.is_alive c = true <-> 0 < Character.hp c.

Definition hp_bounds (c : Character.t) : Prop :=
  0 <= Character.hp c <= Character.max_hp c.

Definition chakra_bounds (c : Character.t) : Prop :=
  0 <= Character.chakra c <= Character.max_chakra c.

(** [take_damage] and [heal] compute from [current_hp] and copy the
    result to [hp], so the bound on [hp] after them comes from the same
    bound on [current_hp]. *)
Definition current_hp_bounds (c : Character.t) : Prop :=
  0 <= Character.current_hp c <= Character.max_hp c.

Definition in_bounds (c : Character.t) : Prop :=
  hp_bounds c /\ chakra_bounds c /\ current_hp_bounds c.

(** What one visit of the round-start pass does to an effect object:
    a positive duration goes down by one. *)
Definition ticked (e : StatusEffect.t) : StatusEffect.t :=
  if 0 <? StatusEffect.duration e
  then StatusEffect.set_duration (StatusEffect.duration e - 1) e
  else e.

(** What the pass may change between two worlds: the [hp] and the
    [status_effects] of [character], the durations of effects, and the
    event log. *)
Record pass_frame (character : cref) (w w' : World) : Prop := {
  frame_others : forall r, r <> character -> chars w' r = chars w r;
  frame_character :
    chars w' character
    = Character.set_status_effects
        (Character.status_effects (chars w' character))
        (Character.set_hp (Character.hp (chars w' character))
           (chars w character));
  frame_effs :
    forall e, effs w' e
              = StatusEffect.set_duration (StatusEffect.duration (effs w' e))
                  (effs w e);
  frame_battle_state : battle_state w' = battle_state w;
  frame_queue : action_queue w' = action_queue w
}.

(** What the round-start loop of [_prepare_new_round] may change: the
    [hp], [chakra] and [status_effects] of characters and the durations
    of effects.  Alive flags, speeds and the teams stay as they are. *)
Record round_frame (w w' : World) : Prop := {
  round_chars :
    forall r, chars w' r
              = Character.set_status_effects
                  (Character.status_effects (chars w' r))
                  (Character.set_chakra (Character.chakra (chars w' r))
                     (Character.set_hp (Character.hp (chars w' r)) (chars w r)));
  round_effs :
    forall e, effs w' e
              = StatusEffect.set_duration (StatusEffect.duration (effs w' e))
                  (effs w e);
  round_battle_state : battle_state w' = battle_state w;
  round_queue : action_queue w' = action_queue w
}.

(** What the loop leaves alone in the character at [r]. *)
Definition round_chars_eq (r : cref) (w w' : World) : Prop :=
  alive w' r = alive w r
  /\ Character.speed (chars w' r) = Character.speed (chars w r)
  /\ Character.chakra_regen (chars w' r) = Character.chakra_regen (chars w r)
  /\ Character.max_hp (chars w' r) = Character.max_hp (chars w r)
  /\ Character.max_chakra (chars w' r) = Character.max_chakra (chars w r)
  /\ Character.current_hp (chars w' r) = Character.current_hp (chars w r).

(** The standing assumptions on magnitudes, and the bounds of the
    character at [r]. *)
Definition sound_at (r : cref) (w : World) : Prop :=
  (forall e, 0 <= StatusEffect.value (effs w e))
  /\ 0 <= Character.chakra_regen (chars w r)
  /\ in_bounds (chars w r).

(** A skill effect whose computed amount is not negative for a caster
    of attack [caster_attack]. *)
Definition effect_nonneg (caster_attack : Z) (effect : Effect) : Prop :=
  match effect with
  | DamageEffect base_value scaling =>
      0 <= calculate_damage base_value scaling caster_attack
  | HealingEffect base_value scaling =>
      0 <= calculate_healing base_value scaling caster_attack
  | OtherEffect => True
  end.

(** The damage of a plain attack, as [_execute_attack] computes it. *)
Definition attack_damage (attacker target : Character.t) : Z :=
  Z.max 1 (Character.attack attacker - Character.defense target / 2).

(** The fields of a character that no operation of the engine writes. *)
Definition same_stats (c c' : Character.t) : Prop :=
  Character.name c' = Character.name c
  /\ Character.max_hp c' = Character.max_hp c
  /\ Character.max_chakra c' = Character.max_chakra c
  /\ Character.attack c' = Character.attack c
  /\ Character.defense c' = Character.defense c
  /\ Character.speed c' = Character.speed c
  /\ Character.id c' = Character.id c
  /\ Character.skills c' = Character.skills c
  /\ Character.chakra_regen c' = Character.chakra_regen c
  /\ Character.is_player_controlled c' = Character.is_player_controlled c.

(** What an operation may do to one character: the stats and the list
    of effects stay, and a character that is alive afterwards was alive
    before. *)
Definition mutated (c c' : Character.t) : Prop :=
  same_stats c c'
  /\ Character.status_effects c' = Character.status_effects c
  /\ (Character.is_alive c' = true -> Character.is_alive c = true).

(** Everything of the world but the characters is unchanged. *)
Definition same_but_chars (w w' : World) : Prop :=
  effs w' = effs w
  /\ battle_state w' = battle_state w
  /\ events w' = events w
  /\ action_queue w' = action_queue w.

(** What any run of the engine may change between two worlds.  The
    teams stay, the round counter does not go down, characters keep
    their stats and are never brought back to life, and effect objects
    change in duration only. *)
Record engine_frame (w w' : World) : Prop := {
  engine_team_a :
    BattleState.team_a (battle_state w') = BattleState.team_a (battle_state w);
  engine_team_b :
    BattleState.team_b (battle_state w') = BattleState.team_b (battle_state w);
  engine_round :
    BattleState.current_round (battle_state w)
    <= BattleState.current_round (battle_state w');
  engine_stats : forall r, same_stats (chars w r) (chars w' r);
  engine_alive : forall r, alive w' r = true -> alive w r = true;
  engine_effs :
    forall e, effs w' e
              = StatusEffect.set_duration (StatusEffect.duration (effs w' e))
                  (effs w e)
}.

(** The chakra of a character after one regeneration. *)
Definition regenerated (c : Character.t) : Z :=
  Z.min (Character.chakra c + Character.chakra_regen c) (Character.max_chakra c).

(** The roster of both teams. *)
Definition roster (w : World) : list cref :=
  (BattleTeam.characters (BattleState.team_a (battle_state w))
   ++ BattleTeam.characters (BattleState.team_b (battle_state w)))%list.

(** An effect that keeps its bearer from acting. *)
Definition disabling (e : StatusEffect.t) : bool :=
  StatusEffectType_eqb (StatusEffect.effect_type e) STUN
  || StatusEffectType_eqb (StatusEffect.effect_type e) FREEZE.

(** A stand-in for [==] on characters in the examples: identity. *)
Definition same_reference (w : World) (a b : cref) : bool := Nat.eqb a b.

(** A session at its first actor. *)
Definition test_session : BattleSession.t :=
  BattleSession.mk ["c1"; "c2"]%list 0.

(** A three-round effect instance. *)
Definition active_effect : ActiveStatusEffect.t :=
  ActiveStatusEffect.mk "burn" "c1" "c2" 3 1 0 "burn#1".

(** [character1] knowing the test skill. *)
Definition skilled_world : World :=
  world_of
    [Character.mk "测试角色1" 100 100 100 100 50 30 50 "" [test_skill] []
       true 10 false 100;
     character2] [] [0%nat] [1%nat].

(** * Properties *)

(** ** Character mutators *)

Lemma take_damage_dead (amount : Z) (c : Character.t) :
  Character.is_alive c = false -> Character.take_damage amount c = (c, 0).
Proof. intros Hd. unfold Character.take_damage. now rewrite Hd. Qed.

Lemma heal_dead (amount : Z) (c : Character.t) :
  Character.is_alive c = false -> Character.heal amount c = (c, 0).
Proof. intros Hd. unfold Character.heal. now rewrite Hd. Qed.

(** C10. A character whose [is_alive] flag is false is left untouched
    by [take_damage] and by [heal], whatever the amount, and both
    return 0: a defeated character neither loses hp nor comes back. *)
Theorem defeated_character_is_frozen (c : Character.t) (amount : Z) :
  Character.is_alive c = false ->
  0 <= amount ->
  Character.take_damage amount c = (c, 0)
  /\ Character.heal amount c = (c, 0).
Proof.
  intros Hd _. split; [apply take_damage_dead | apply heal_dead]; exact Hd.
Qed.

Lemma defeated_character_is_frozen_witness :
  Character.take_damage 30 (defeated character2) = (defeated character2, 0)
  /\ Character.heal 30 (defeated character2) = (defeated character2, 0).
Proof.
  apply (defeated_character_is_frozen (defeated character2) 30);
    [reflexivity | lia].
Defined.

(** The same mutators on a living character, with [current_hp] in step
    with [hp]. *)
Lemma take_damage_alive (amount : Z) (c : Character.t) :
  Character.is_alive c = true ->
  let c' := fst (Character.take_damage amount c) in
  Character.hp c' = Z.max 0 (Character.current_hp c - amount)
  /\ Character.current_hp c' = Character.hp c'
  /\ Character.is_alive c' = (0 <? Character.hp c')
  /\ snd (Character.take_damage amount c) = Z.min (Character.current_hp c) amount
  /\ Character.chakra c' = Character.chakra c
  /\ Character.max_hp c' = Character.max_hp c
  /\ Character.max_chakra c' = Character.max_chakra c.
Proof.
  intros Ha. unfold Character.take_damage. rewrite Ha. cbn -[Z.min Z.max].
  destruct (Character.current_hp c - Z.min (Character.current_hp c) amount <=? 0)
    eqn:E; cbn -[Z.min Z.max].
  - apply Z.leb_le in E. repeat split; try reflexivity; lia.
  - apply Z.leb_gt in E. repeat split; try reflexivity; try lia.
    rewrite Ha. symmetry. apply Z.ltb_lt. lia.
Qed.

Lemma heal_alive (amount : Z) (c : Character.t) :
  Character.is_alive c = true ->
  let c' := fst (Character.heal amount c) in
  Character.hp c' = Z.min (Character.max_hp c) (Character.current_hp c + amount)
  /\ Character.current_hp c' = Character.hp c'
  /\ Character.is_alive c' = true
  /\ Character.chakra c' = Character.chakra c
  /\ Character.max_hp c' = Character.max_hp c
  /\ Character.max_chakra c' = Character.max_chakra c.
Proof.
  intros Ha. unfold Character.heal. rewrite Ha. cbn -[Z.min Z.max].
  repeat split; assumption.
Qed.

(** [take_damage] always leaves the flag and [hp] in agreement. *)
Lemma take_damage_alive_iff_hp (amount : Z) (c : Character.t) :
  Character.is_alive c = true ->
  alive_iff_hp (fst (Character.take_damage amount c)).
Proof.
  intros Ha. destruct (take_damage_alive amount c Ha) as (_ & _ & Hflag & _).
  unfold alive_iff_hp. rewrite Hflag. apply Z.ltb_lt.
Qed.

Lemma take_damage_chakra (amount : Z) (c : Character.t) :
  Character.chakra (fst (Character.take_damage amount c)) = Character.chakra c.
Proof.
  unfold Character.take_damage.
  destruct (Character.is_alive c); cbn -[Z.min]; [| reflexivity].
  now destruct (_ <=? 0).
Qed.

Lemma heal_chakra (amount : Z) (c : Character.t) :
  Character.chakra (fst (Character.heal amount c)) = Character.chakra c.
Proof. unfold Character.heal. now destruct (Character.is_alive c). Qed.

(** ** The store *)

Lemma upd_same {A : Type} (f : nat -> A) (r : nat) (v : A) : upd f r v r = v.
Proof. unfold upd. now rewrite Nat.eqb_refl. Qed.

Lemma upd_other {A : Type} (f : nat -> A) (r r' : nat) (v : A) :
  r' <> r -> upd f r v r' = f r'.
Proof. intros Hne. unfold upd. now apply Nat.eqb_neq in Hne as ->. Qed.

(** ** Battle termination *)

Lemma any_false {A : Type} (p : A -> bool) (l : list A) :
  (forall x, In x l -> p x = false) -> any p l = false.
Proof.
  intros Hall. unfold any. destruct (existsb p l) eqn:E; [| reflexivity].
  apply existsb_exists in E as (x & Hin & Hp). rewrite (Hall x Hin) in Hp.
  discriminate.
Qed.

Lemma any_true {A : Type} (p : A -> bool) (l : list A) (x : A) :
  In x l -> p x = true -> any p l = true.
Proof. intros Hin Hp. apply existsb_exists. now exists x. Qed.

(** With one side gone, [get_winning_team] names team A when it still
    has a living member and team B in every other case. *)
Lemma get_winning_team_team_a_dead (w : World) :
  (forall c, In c (BattleTeam.characters (BattleState.team_a (battle_state w))) ->
             alive w c = false) ->
  is_battle_over w = true /\ get_winning_team w = Some TEAM_B.
Proof.
  intros Hdead. unfold get_winning_team, is_battle_over.
  now rewrite (any_false _ _ Hdead).
Qed.

(** In the states where the alive flags agree with hp on the members
    of both teams: when every member of team A is at 0 hp and some
    member of team B has hp above 0, the battle is over and the winner
    is team B. *)
Theorem team_b_wins_when_team_a_falls (w : World) :
  let team_a := BattleTeam.characters (BattleState.team_a (battle_state w)) in
  let team_b := BattleTeam.characters (BattleState.team_b (battle_state w)) in
  (forall c, In c (team_a ++ team_b) -> alive_iff_hp (chars w c)) ->
  (forall c, In c team_a -> Character.hp (chars w c) = 0) ->
  (exists c, In c team_b /\ 0 < Character.hp (chars w c)) ->
  is_battle_over w = true /\ get_winning_team w = Some TEAM_B.
Proof.
  intros team_a team_b Hinv Hzero _.
  apply get_winning_team_team_a_dead. intros c Hin.
  unfold alive. destruct (Character.is_alive (chars w c)) eqn:E; [| reflexivity].
  assert (Hc : In c (team_a ++ team_b)) by (apply in_or_app; now left).
  apply (Hinv c Hc) in E. rewrite (Hzero c Hin) in E. lia.
Qed.

Lemma team_b_wins_when_team_a_falls_witness :
  is_battle_over team_a_fallen_world = true
  /\ get_winning_team team_a_fallen_world = Some TEAM_B.
Proof.
  apply (team_b_wins_when_team_a_falls team_a_fallen_world).
  - intros c [<- | [<- | []]]; unfold alive_iff_hp; vm_compute; split;
      intros; congruence.
  - intros c [<- | []]. reflexivity.
  - exists 1%nat. split; [now left | reflexivity].
Defined.

(** C8, at the failing input.  Team A's only member, at 10 hp, carries
    a poison of 10 and team B's member is at full hp.  After
    [start_battle] every member of team A has hp 0 and team B has a
    member with hp above 0, yet [is_battle_over] answers false and
    [get_winning_team] names no team: both read the [is_alive] flag,
    which the round-start pass left true.  Had the same 10 points gone
    through [take_damage], the battle would be over with team B the
    winner. *)
Theorem team_a_poisoned_to_zero_battle_goes_on :
  exists w1 g1,
    start_battle 0%nat fading_team_a_world = Some (w1, g1)
    /\ (forall c,
          In c (BattleTeam.characters (BattleState.team_a (battle_state w1))) ->
          Character.hp (chars w1 c) = 0)
    /\ (exists c,
          In c (BattleTeam.characters (BattleState.team_b (battle_state w1)))
          /\ 0 < Character.hp (chars w1 c))
    /\ Character.is_alive (chars w1 0) = true
    /\ is_battle_over w1 = false
    /\ get_winning_team w1 = None
    /\ (let w2 :=
          set_char 0
            (fst (Character.take_damage 10 (chars fading_team_a_world 0)))
            fading_team_a_world in
        Character.hp (chars w2 0) = 0
        /\ is_battle_over w2 = true
        /\ get_winning_team w2 = Some TEAM_B).
Proof.
  eexists. eexists. split; [vm_compute; reflexivity |].
  split; [intros c [<- | []]; reflexivity |].
  split; [exists 1%nat; split; [now left | reflexivity] |].
  repeat split.
Qed.

(** C4, at the failing input.  With every member of both teams
    defeated the battle is over, but [get_winning_team] returns team B
    rather than no team; the battle view, on the same state, finds no
    winner and announces a draw. *)
Theorem double_wipe_names_team_b :
  alive wiped_world 0 = false
  /\ alive wiped_world 1 = false
  /\ is_battle_over wiped_world = true
  /\ get_winning_team wiped_world = Some TEAM_B
  /\ battle_view_winner wiped_world = None.
Proof. repeat split. Qed.

(** ** Plain attacks *)

Lemma attack_damage_positive (attacker target : Character.t) :
  1 <= attack_damage attacker target.
Proof. unfold attack_damage. lia. Qed.

Example attack_50_defense_30 :
  attack_damage character1 character1 = 35.
Proof. reflexivity. Qed.

(** What [_execute_attack] does to a living target: it passes
    [attack_damage] to [take_damage], which works from [current_hp]. *)
Lemma execute_attack_live_target (action : Action.t) (result : ActionResult.t)
  (w : World) (target : cref) :
  Action.target action = Some target ->
  alive w target = true ->
  let attacker := Action.character action in
  let damage := attack_damage (chars w attacker) (chars w target) in
  let w' := fst (execute_attack action result w) in
  chars w' target = fst (Character.take_damage damage (chars w target))
  /\ Character.hp (chars w' target)
     = Z.max 0 (Character.current_hp (chars w target) - damage)
  /\ (forall r, r <> target -> chars w' r = chars w r)
  /\ ActionResult.success (snd (execute_attack action result w)) = true.
Proof.
  intros Ht Ha. cbn zeta. unfold execute_attack. rewrite Ht, Ha.
  cbn [negb]. fold (attack_damage (chars w (Action.character action))
                                   (chars w target)).
  destruct (Character.take_damage _ (chars w target)) as [t' dmg] eqn:E.
  cbn [fst snd]. split; [| split; [| split]].
  - cbn. apply upd_same.
  - cbn [chars set_char]. rewrite upd_same.
    change t' with (fst (t', dmg)). rewrite <- E.
    now apply take_damage_alive.
  - intros r Hr. cbn. now apply upd_other.
  - now destruct (negb _).
Qed.

(** When [hp] and [current_hp] agree, the target loses exactly the
    damage, clamped at 0. *)
Lemma execute_attack_in_step (action : Action.t) (result : ActionResult.t)
  (w : World) (target : cref) :
  Action.target action = Some target ->
  alive w target = true ->
  Character.current_hp (chars w target) = Character.hp (chars w target) ->
  Character.hp (chars (fst (execute_attack action result w)) target)
  = Z.max 0 (Character.hp (chars w target)
             - attack_damage (chars w (Action.character action))
                 (chars w target)).
Proof.
  intros Ht Ha Hstep.
  destruct (execute_attack_live_target action result w target Ht Ha)
    as (_ & Hhp & _).
  cbn zeta in Hhp. now rewrite Hhp, Hstep.
Qed.

(** C3, at the failing input.  [character2] (100 hp, defense 40)
    carries a poison of 50.  Starting the battle runs the round-start
    pass, which writes [hp] = 50 and leaves [current_hp] at 100.
    [character1] (attack 50) then attacks for max(1, 50 - 20) = 30:
    [take_damage] subtracts from [current_hp], and the target's [hp]
    goes from 50 up to 70 instead of down to 20. *)
Theorem attack_after_poison_raises_hp :
  exists w1 g1,
    start_battle 0%nat poisoned_world = Some (w1, g1)
    /\ Character.hp (chars w1 1) = 50
    /\ Character.current_hp (chars w1 1) = 100
    /\ alive w1 1 = true
    /\ attack_damage (chars w1 0) (chars w1 1) = 30
    /\ Character.hp (chars (fst (resolve attack_action w1)) 1) = 70.
Proof.
  eexists. eexists. split; [vm_compute; reflexivity |].
  repeat split.
Qed.

(** C1, at the failing input.  A living character at 10 hp carries a
    poison of 10.  The round-start pass brings [hp] to 0 and leaves
    [is_alive] true; the character is still placed in the turn order. *)
Theorem poison_to_zero_leaves_alive :
  exists w1 g1,
    start_battle 0%nat dying_world = Some (w1, g1)
    /\ Character.hp (chars w1 1) = 0
    /\ Character.is_alive (chars w1 1) = true
    /\ In 1%nat (BattleState.turn_order (battle_state w1))
    /\ ~ alive_iff_hp (chars w1 1).
Proof.
  eexists. eexists. split; [vm_compute; reflexivity |].
  repeat split.
  - right. now left.
  - unfold alive_iff_hp. cbn. intros [Hl _]. specialize (Hl eq_refl). lia.
Qed.

(** ** Skills *)

Lemma skill_cost_positive (skill : Skill.t) :
  0 < Skill.cost skill -> skill_cost skill = Skill.cost skill.
Proof. intros Hpos. unfold skill_cost. now apply Z.ltb_lt in Hpos as ->. Qed.

Lemma set_char_chakra (w : World) (target r : cref) (c : Character.t) :
  Character.chakra c = Character.chakra (chars w target) ->
  Character.chakra (chars (set_char target c w) r) = Character.chakra (chars w r).
Proof.
  intros Hc. cbn. unfold upd. destruct (Nat.eqb_spec r target) as [-> |]; auto.
Qed.

(** No skill effect touches anybody's chakra or the success flag. *)
Lemma apply_skill_effect_frame (caster target : cref)
  (acc : World * ActionResult.t) (effect : Effect) :
  (forall r, Character.chakra (chars (fst (apply_skill_effect caster target acc effect)) r)
             = Character.chakra (chars (fst acc) r))
  /\ ActionResult.success (snd (apply_skill_effect caster target acc effect))
     = ActionResult.success (snd acc).
Proof.
  destruct acc as [w result]. destruct effect as [b s | b s |]; cbn [apply_skill_effect].
  - pose proof (take_damage_chakra
                  (calculate_damage b s (Character.attack (chars w caster)))
                  (chars w target)) as Hc.
    destruct (Character.take_damage _ _) as [t' dmg]. cbn [fst snd] in *.
    split.
    + intros r. now apply set_char_chakra.
    + now destruct (negb _).
  - pose proof (heal_chakra
                  (calculate_healing b s (Character.attack (chars w caster)))
                  (chars w target)) as Hc.
    destruct (Character.heal _ _) as [t' amt]. cbn [fst snd] in *.
    split; [intros r; now apply set_char_chakra | reflexivity].
  - now split.
Qed.

Lemma apply_skill_effects_frame (caster target : cref) (effects : list Effect) :
  forall acc,
    (forall r, Character.chakra
                 (chars (fst (fold_left (apply_skill_effect caster target) effects acc)) r)
               = Character.chakra (chars (fst acc) r))
    /\ ActionResult.success
         (snd (fold_left (apply_skill_effect caster target) effects acc))
       = ActionResult.success (snd acc).
Proof.
  induction effects as [| e effects IH]; intros acc; cbn [fold_left].
  - now split.
  - destruct (IH (apply_skill_effect caster target acc e)) as [IHc IHs].
    destruct (apply_skill_effect_frame caster target acc e) as [Hc Hs].
    split; [intros r; now rewrite IHc, Hc | now rewrite IHs, Hs].
Qed.

Lemma pay_cost_chakra (caster : cref) (cost : Z) (w : World) :
  0 <= cost -> 0 <= Character.chakra (chars w caster) ->
  Character.chakra (chars (pay_cost caster cost w) caster)
  = Z.max 0 (Character.chakra (chars w caster) - cost).
Proof.
  intros Hcost Hch. unfold pay_cost. destruct (0 <? cost) eqn:E.
  - cbn. now rewrite upd_same.
  - apply Z.ltb_ge in E. lia.
Qed.

(** The shape of a resolved skill: the cost is paid first, the effects
    are folded over the resulting world, and the result is marked
    successful. *)
Lemma execute_skill_resolved (action : Action.t) (result : ActionResult.t)
  (w : World) (skill : Skill.t) (target : cref) :
  Action.skill action = Some skill ->
  Action.target action = Some target ->
  alive w target = true ->
  let caster := Action.character action in
  fst (execute_skill action result w)
  = fst (fold_left (apply_skill_effect caster target) (Skill.effects skill)
           (pay_cost caster (skill_cost skill) w, result))
  /\ ActionResult.success (snd (execute_skill action result w)) = true.
Proof.
  intros Hs Ht Ha. cbn zeta. unfold execute_skill. rewrite Hs, Ht, Ha.
  cbn [negb]. now destruct (fold_left _ _ _).
Qed.

(** A skill action that names no skill, no target or a defeated target
    changes nothing and fails with one more message. *)
Lemma execute_skill_rejected (action : Action.t) (result : ActionResult.t)
  (w : World) :
  Action.skill action = None
  \/ Action.target action = None
  \/ (exists target, Action.target action = Some target /\ alive w target = false) ->
  fst (execute_skill action result w) = w
  /\ ActionResult.success (snd (execute_skill action result w)) = false
  /\ exists m, ActionResult.messages (snd (execute_skill action result w))
               = (ActionResult.messages result ++ [m])%list.
Proof.
  intros Hrej. unfold execute_skill.
  destruct (Action.skill action) as [skill |].
  - destruct Hrej as [Hs | [Ht | (target & Ht & Hd)]]; [discriminate | |].
    + rewrite Ht. cbn. eauto.
    + rewrite Ht, Hd. cbn. eauto.
  - cbn. eauto.
Qed.

(** The effects leave the caster's chakra where the payment put it. *)
Lemma execute_skill_resolved_chakra (action : Action.t)
  (result : ActionResult.t) (w : World) (skill : Skill.t) (target : cref) :
  Action.skill action = Some skill ->
  Action.target action = Some target ->
  alive w target = true ->
  0 <= skill_cost skill ->
  0 <= Character.chakra (chars w (Action.character action)) ->
  Character.chakra
    (chars (fst (execute_skill action result w)) (Action.character action))
  = Z.max 0 (Character.chakra (chars w (Action.character action))
             - skill_cost skill).
Proof.
  intros Hs Ht Ha Hcost Hch.
  destruct (execute_skill_resolved action result w skill target Hs Ht Ha)
    as [Hw _].
  rewrite Hw.
  destruct (apply_skill_effects_frame (Action.character action) target
              (Skill.effects skill)
              (pay_cost (Action.character action) (skill_cost skill) w, result))
    as [Hframe _].
  rewrite Hframe. cbn [fst]. now apply pay_cost_chakra.
Qed.

(** C5. A skill action with a skill and a living target succeeds; the
    caster's chakra is first reduced by the skill's cost, clamped at 0,
    the effects are then applied to that world, and they leave the
    caster's chakra at max(0, chakra - cost).  A skill action without a
    valid living target fails and changes nothing at all. *)
Theorem skill_cost_paid_or_nothing_changes (action : Action.t)
  (result : ActionResult.t) (w : World) (skill : Skill.t) :
  Action.skill action = Some skill ->
  0 <= skill_cost skill ->
  0 <= Character.chakra (chars w (Action.character action)) ->
  let caster := Action.character action in
  let out := execute_skill action result w in
  (0 < Skill.cost skill -> skill_cost skill = Skill.cost skill)
  /\ (forall target,
      Action.target action = Some target -> alive w target = true ->
      ActionResult.success (snd out) = true
      /\ fst out
         = fst (fold_left (apply_skill_effect caster target) (Skill.effects skill)
                  (pay_cost caster (skill_cost skill) w, result))
      /\ Character.chakra (chars (pay_cost caster (skill_cost skill) w) caster)
         = Z.max 0 (Character.chakra (chars w caster) - skill_cost skill)
      /\ Character.chakra (chars (fst out) caster)
         = Z.max 0 (Character.chakra (chars w caster) - skill_cost skill))
  /\ (Action.target action = None
      \/ (exists target, Action.target action = Some target
                         /\ alive w target = false) ->
      ActionResult.success (snd out) = false /\ fst out = w).
Proof.
  intros Hs Hcost Hch. cbn zeta. split; [apply skill_cost_positive | split].
  - intros target Ht Ha.
    destruct (execute_skill_resolved action result w skill target Hs Ht Ha)
      as [Hw Hok].
    repeat split; auto using pay_cost_chakra.
    now apply (execute_skill_resolved_chakra action result w skill target).
  - intros Hrej.
    destruct (execute_skill_rejected action result w) as (Hw & Hfail & _); auto.
Qed.

Lemma skill_cost_paid_or_nothing_changes_witness :
  Character.chakra
    (chars (fst (execute_skill skill_action (ActionResult.new skill_action)
                   test_world)) 0)
  = Z.max 0 (100 - 20).
Proof.
  destruct (skill_cost_paid_or_nothing_changes skill_action
              (ActionResult.new skill_action) test_world test_skill eq_refl)
    as (_ & Hok & _).
  - cbn. lia.
  - cbn. lia.
  - destruct (Hok 1%nat eq_refl eq_refl) as (_ & _ & _ & Hc). exact Hc.
Defined.

(** Every skill action is either resolved or rejected, and which one
    depends on the skill and the target alone. *)
Lemma execute_skill_cases (action : Action.t) (w : World) :
  (exists skill target,
      Action.skill action = Some skill
      /\ Action.target action = Some target /\ alive w target = true)
  \/ (Action.skill action = None
      \/ Action.target action = None
      \/ (exists target, Action.target action = Some target
                         /\ alive w target = false)).
Proof.
  destruct (Action.skill action) as [skill |]; [| now right; left].
  destruct (Action.target action) as [target |]; [| now right; right; left].
  destruct (alive w target) eqn:Ha.
  - left. now exists skill, target.
  - right. right. right. now exists target.
Qed.

(** C7, refuted as stated: a caster with 10 chakra casts the skill of
    cost 20 on a living target, and the result is successful. *)
Lemma insufficient_chakra_counterexample :
  ~ (Character.chakra (chars low_chakra_world 0) < skill_cost test_skill ->
     ActionResult.success (snd (resolve skill_action low_chakra_world)) = false).
Proof.
  intros Hclaim. assert (Hlt : Character.chakra (chars low_chakra_world 0)
                               < skill_cost test_skill) by (cbn; lia).
  specialize (Hclaim Hlt). vm_compute in Hclaim. discriminate.
Qed.

(** C7, as amended.  Resolving a skill action never compares the
    caster's chakra with the cost.  The result is successful exactly
    when a skill and a living target are given; a caster who then holds
    less chakra than the cost ends at 0 chakra.  An unsuccessful result
    means nothing changed and one message was added. *)
Theorem skill_resolution_ignores_affordability (action : Action.t)
  (result : ActionResult.t) (w : World) :
  let caster := Action.character action in
  let out := execute_skill action result w in
  (ActionResult.success (snd out) = true <->
   exists skill target,
     Action.skill action = Some skill
     /\ Action.target action = Some target /\ alive w target = true)
  /\ (forall skill target,
        Action.skill action = Some skill ->
        Action.target action = Some target -> alive w target = true ->
        0 <= Character.chakra (chars w caster) < skill_cost skill ->
        ActionResult.success (snd out) = true
        /\ Character.chakra (chars (fst out) caster) = 0)
  /\ (ActionResult.success (snd out) = false ->
      fst out = w
      /\ exists m, ActionResult.messages (snd out)
                   = (ActionResult.messages result ++ [m])%list).
Proof.
  cbn zeta. split; [| split].
  - split.
    + intros Hok. destruct (execute_skill_cases action w) as [Hres | Hrej]; auto.
      destruct (execute_skill_rejected action result w Hrej) as (_ & Hfail & _).
      congruence.
    + intros (skill & target & Hs & Ht & Ha).
      now apply (execute_skill_resolved action result w skill target).
  - intros skill target Hs Ht Ha [Hch Hlt].
    split.
    + now apply (execute_skill_resolved action result w skill target).
    + rewrite (execute_skill_resolved_chakra action result w skill target);
        auto; lia.
  - intros Hfail. destruct (execute_skill_cases action w)
      as [(skill & target & Hs & Ht & Ha) | Hrej].
    + destruct (execute_skill_resolved action result w skill target Hs Ht Ha)
        as [_ Hok]. congruence.
    + destruct (execute_skill_rejected action result w Hrej) as (Hw & _ & Hm).
      now split.
Qed.

Lemma skill_resolution_ignores_affordability_witness :
  ActionResult.success
    (snd (execute_skill skill_action (ActionResult.new skill_action)
            low_chakra_world)) = true
  /\ Character.chakra
       (chars (fst (execute_skill skill_action (ActionResult.new skill_action)
                      low_chakra_world)) 0) = 0.
Proof.
  destruct (skill_resolution_ignores_affordability skill_action
              (ActionResult.new skill_action) low_chakra_world)
    as (_ & Hlow & _).
  apply (Hlow test_skill 1%nat); try reflexivity. cbn. lia.
Defined.

(** ** The round-start pass over a character's status effects *)

Lemma set_duration_same (e : StatusEffect.t) :
  StatusEffect.set_duration (StatusEffect.duration e) e = e.
Proof. now destruct e. Qed.

Lemma pass_frame_refl (character : cref) (w : World) :
  pass_frame character w w.
Proof.
  constructor; auto.
  - now destruct (chars w character).
  - intros e. now rewrite set_duration_same.
Qed.

Lemma pass_frame_trans (character : cref) (w1 w2 w3 : World) :
  pass_frame character w1 w2 -> pass_frame character w2 w3 ->
  pass_frame character w1 w3.
Proof.
  intros [Ho1 Hc1 He1 Hb1 Hq1] [Ho2 Hc2 He2 Hb2 Hq2]. constructor.
  - intros r Hr. now rewrite Ho2, Ho1.
  - revert Hc1 Hc2.
    generalize (chars w1 character), (chars w2 character), (chars w3 character).
    intros x1 x2 x3 -> ->. reflexivity.
  - intros e. specialize (He1 e). specialize (He2 e). revert He1 He2.
    generalize (effs w1 e), (effs w2 e), (effs w3 e).
    intros y1 y2 y3 -> ->. reflexivity.
  - congruence.
  - congruence.
Qed.

(** [tick_effect] in terms of the world it starts from. *)
Lemma tick_effect_unfold (character : cref) (w : World) (to_remove : list eref)
  (effect : eref) :
  let e := effs w effect in
  let w1 := if 0 <? StatusEffect.duration e
            then set_eff effect (ticked e) w else w in
  let c := chars w character in
  tick_effect character (w, to_remove) effect
  = (match StatusEffect.effect_type e with
     | DOT =>
         emit (on_effect_triggered character effect (StatusEffect.value e))
           (set_char character
              (Character.set_hp
                 (Z.max 0 (Character.hp c - StatusEffect.value e)) c) w1)
     | HOT =>
         emit (on_effect_triggered character effect (StatusEffect.value e))
           (set_char character
              (Character.set_hp
                 (Z.min (Character.max_hp c)
                        (Character.hp c + StatusEffect.value e)) c) w1)
     | _ => w1
     end,
     if StatusEffect.duration (ticked e) =? 0
     then (to_remove ++ [effect])%list else to_remove).
Proof.
  cbn zeta. unfold tick_effect, ticked.
  destruct (0 <? StatusEffect.duration (effs w effect)) eqn:Hpos;
    cbn [effs set_eff chars]; rewrite ?upd_same;
    cbn [StatusEffect.effect_type StatusEffect.value StatusEffect.set_duration];
    destruct (StatusEffect.effect_type (effs w effect));
    cbn [effs set_eff set_char emit chars]; rewrite ?upd_same;
    match goal with |- context [?d =? 0] => destruct (d =? 0) end;
    reflexivity.
Qed.

Lemma ticked_frame (e : StatusEffect.t) :
  ticked e = StatusEffect.set_duration (StatusEffect.duration (ticked e)) e.
Proof. unfold ticked. destruct (0 <? StatusEffect.duration e); now destruct e. Qed.

Lemma set_eff_frame (character : cref) (effect : eref) (w : World) :
  pass_frame character w
    (if 0 <? StatusEffect.duration (effs w effect)
     then set_eff effect (ticked (effs w effect)) w else w).
Proof.
  destruct (0 <? _); [| apply pass_frame_refl].
  constructor; cbn; auto.
  - now destruct (chars w character).
  - intros e. unfold upd. destruct (Nat.eqb_spec e effect) as [-> |].
    + apply ticked_frame.
    + now rewrite set_duration_same.
Qed.

Lemma set_hp_frame (character : cref) (v : Z) (ev : Event) (w : World) :
  pass_frame character w
    (emit ev (set_char character (Character.set_hp v (chars w character)) w)).
Proof.
  constructor; cbn; auto.
  - intros r Hr. now apply upd_other.
  - rewrite upd_same. now destruct (chars w character).
  - intros e. now rewrite set_duration_same.
Qed.

Lemma tick_effect_frame (character : cref) (w : World) (to_remove : list eref)
  (effect : eref) :
  pass_frame character w (fst (tick_effect character (w, to_remove) effect)).
Proof.
  rewrite tick_effect_unfold. cbn [fst].
  pose proof (set_eff_frame character effect w) as Hw1.
  set (w1 := if 0 <? _ then _ else _) in *.
  assert (Hc : chars w1 character = chars w character).
  { subst w1. now destruct (0 <? _). }
  destruct (StatusEffect.effect_type (effs w effect)); try exact Hw1;
    (eapply pass_frame_trans; [exact Hw1 |]); rewrite <- Hc; apply set_hp_frame.
Qed.

Lemma tick_effects_frame (character : cref) (l : list eref) :
  forall w to_remove,
    pass_frame character w
      (fst (fold_left (tick_effect character) l (w, to_remove))).
Proof.
  induction l as [| e l IH]; intros w to_remove; cbn [fold_left].
  - apply pass_frame_refl.
  - pose proof (tick_effect_frame character w to_remove e) as Hstep.
    destruct (tick_effect character (w, to_remove) e) as [w1 R1].
    eapply pass_frame_trans; [exact Hstep | apply IH].
Qed.

Lemma remove_effect_frame (character : cref) (w w' : World) (effect : eref) :
  remove_effect character (Some w) effect = Some w' ->
  pass_frame character w w'
  /\ (forall e, effs w' e = effs w e)
  /\ list_remove (fun e => StatusEffect.eqb (effs w e) (effs w effect))
       (Character.status_effects (chars w character))
     = Some (Character.status_effects (chars w' character))
  /\ events w' = (events w ++ [on_status_effect_removed character effect])%list.
Proof.
  unfold remove_effect. destruct (list_remove _ _) as [l |]; [| discriminate].
  intros [= <-]. split; [| split; [| split]]; cbn; auto.
  - constructor; cbn; auto.
    + intros r Hr. now apply upd_other.
    + rewrite upd_same. now destruct (chars w character).
    + intros e. now rewrite set_duration_same.
  - now rewrite upd_same.
Qed.

Lemma remove_effect_none (character : cref) (effect : eref) :
  remove_effect character None effect = None.
Proof. reflexivity. Qed.

Lemma remove_effects_none (character : cref) (l : list eref) :
  fold_left (remove_effect character) l None = None.
Proof. induction l; cbn; auto. Qed.

Lemma remove_effects_frame (character : cref) (l : list eref) :
  forall w w',
    fold_left (remove_effect character) l (Some w) = Some w' ->
    pass_frame character w w' /\ (forall e, effs w' e = effs w e).
Proof.
  induction l as [| e l IH]; intros w w'; cbn [fold_left].
  - intros [= <-]. split; [apply pass_frame_refl | auto].
  - destruct (remove_effect character (Some w) e) as [w1 |] eqn:E.
    + intros Hrest. apply remove_effect_frame in E as (Hf & He & _).
      destruct (IH _ _ Hrest) as [Hf' He'].
      split; [eapply pass_frame_trans; eauto | intros x; now rewrite He', He].
    + now rewrite remove_effects_none.
Qed.

(** Whatever the pass returns differs from the world it was given only
    within the frame. *)
Lemma process_turn_based_effects_frame (character : cref) (w w' : World) :
  process_turn_based_effects character w = Some w' ->
  pass_frame character w w'.
Proof.
  unfold process_turn_based_effects.
  pose proof (tick_effects_frame character
                (Character.status_effects (chars w character)) w []) as H1.
  destruct (fold_left (tick_effect character) _ _) as [w1 R]. cbn [fst] in H1.
  intros H2. apply remove_effects_frame in H2 as [H2 _].
  eapply pass_frame_trans; eauto.
Qed.

(** The first loop changes nothing of the character but [hp]. *)
Lemma tick_effect_character (character : cref) (w : World)
  (to_remove : list eref) (effect : eref) :
  let w' := fst (tick_effect character (w, to_remove) effect) in
  chars w' character
  = Character.set_hp (Character.hp (chars w' character)) (chars w character).
Proof.
  cbn zeta. rewrite tick_effect_unfold. cbn [fst].
  set (w1 := if 0 <? _ then _ else _).
  assert (Hc : chars w1 character = chars w character).
  { subst w1. now destruct (0 <? _). }
  destruct (StatusEffect.effect_type (effs w effect));
    cbn [chars emit set_char]; rewrite ?upd_same, ?Hc;
    now destruct (chars w character).
Qed.

Lemma tick_effects_character (character : cref) (l : list eref) :
  forall w to_remove,
    let w' := fst (fold_left (tick_effect character) l (w, to_remove)) in
    chars w' character
    = Character.set_hp (Character.hp (chars w' character)) (chars w character).
Proof.
  induction l as [| e l IH]; intros w to_remove; cbn [fold_left].
  - cbn. now destruct (chars w character).
  - pose proof (tick_effect_character character w to_remove e) as Hstep.
    destruct (tick_effect character (w, to_remove) e) as [w1 R1].
    cbn zeta in *. cbn [fst] in Hstep. rewrite IH, Hstep.
    now destruct (chars w character).
Qed.

(** Every reference queued for removal was met in the list. *)
Lemma tick_effects_to_remove (character : cref) (l : list eref) :
  forall w to_remove,
  exists rest,
    Permutation (to_remove ++ l)
      (snd (fold_left (tick_effect character) l (w, to_remove)) ++ rest).
Proof.
  induction l as [| e l IH]; intros w to_remove; cbn [fold_left].
  - exists []. reflexivity.
  - rewrite tick_effect_unfold.
    destruct (StatusEffect.duration (ticked (effs w e)) =? 0).
    + destruct (IH (fst (tick_effect character (w, to_remove) e))
                  (to_remove ++ [e])%list) as [rest Hrest].
      rewrite tick_effect_unfold in Hrest. cbn [fst] in Hrest.
      exists rest. now rewrite <- app_assoc in Hrest.
    + destruct (IH (fst (tick_effect character (w, to_remove) e)) to_remove)
        as [rest Hrest].
      rewrite tick_effect_unfold in Hrest. cbn [fst] in Hrest.
      exists (e :: rest).
      rewrite <- Permutation_middle, <- Permutation_middle.
      now apply perm_skip.
Qed.

Lemma StatusEffectType_eqb_eq (a b : StatusEffectType) :
  StatusEffectType_eqb a b = true <-> a = b.
Proof. split; [destruct a, b; cbn; congruence | intros ->; now destruct b]. Qed.

Lemma StatusEffect_eqb_eq (a b : StatusEffect.t) :
  StatusEffect.eqb a b = true <-> a = b.
Proof.
  destruct a as [n1 d1 t1 v1 u1 s1 b1], b as [n2 d2 t2 v2 u2 s2 b2].
  unfold StatusEffect.eqb. cbn. rewrite !andb_true_iff.
  rewrite !String.eqb_eq, StatusEffectType_eqb_eq, !Z.eqb_eq, Bool.eqb_true_iff.
  split.
  - intros ((((((-> & ->) & ->) & ->) & ->) & Hs) & ->).
    destruct s1, s2; try discriminate; [apply String.eqb_eq in Hs as -> |];
      reflexivity.
  - intros [= -> -> -> -> -> -> ->]. repeat split.
    destruct s2; [apply String.eqb_refl | reflexivity].
Qed.

Lemma list_remove_found {A : Type} (same : A -> bool) (l : list A) (x : A) :
  In x l -> same x = true ->
  exists l1 y l2,
    l = (l1 ++ y :: l2)%list /\ same y = true
    /\ list_remove same l = Some (l1 ++ l2)%list.
Proof.
  induction l as [| z l IH]; intros Hin Hx; [contradiction |].
  cbn [list_remove]. destruct (same z) eqn:Hz.
  - now exists [], z, l.
  - destruct Hin as [-> | Hin]; [congruence |].
    destruct (IH Hin Hx) as (l1 & y & l2 & -> & Hy & ->).
    now exists (z :: l1), y, l2.
Qed.

(** The second loop never raises: [list.remove] finds each effect it is
    given, because the effect (or an equal one) is still in the list. *)
Lemma remove_effects_total (character : cref) (to_remove : list eref) :
  forall w rest,
    Permutation (map (effs w) (Character.status_effects (chars w character)))
                (map (effs w) to_remove ++ rest) ->
    exists w', fold_left (remove_effect character) to_remove (Some w) = Some w'.
Proof.
  induction to_remove as [| e R IH]; intros w rest Hperm; cbn [fold_left].
  - now exists w.
  - cbn [map app] in Hperm.
    assert (Hin : In (effs w e)
                     (map (effs w) (Character.status_effects (chars w character)))).
    { eapply Permutation_in; [symmetry; exact Hperm | now left]. }
    apply in_map_iff in Hin as (x & Hx & Hin).
    destruct (list_remove_found
                (fun y => StatusEffect.eqb (effs w y) (effs w e)) _ x Hin)
      as (l1 & y & l2 & Hl & Hy & Hrem).
    { now apply StatusEffect_eqb_eq. }
    apply StatusEffect_eqb_eq in Hy.
    unfold remove_effect at 2. rewrite Hrem.
    apply (IH _ rest). cbn [chars effs emit set_char]. rewrite upd_same. cbn.
    rewrite Hl, map_app in Hperm. cbn [map] in Hperm. rewrite Hy in Hperm.
    rewrite map_app. symmetry. eapply Permutation_cons_app_inv.
    symmetry. exact Hperm.
Qed.

(** The pass always returns. *)
Lemma process_turn_based_effects_total (character : cref) (w : World) :
  exists w', process_turn_based_effects character w = Some w'.
Proof.
  unfold process_turn_based_effects.
  set (l := Character.status_effects (chars w character)).
  destruct (tick_effects_to_remove character l w []) as [rest Hperm].
  pose proof (tick_effects_character character l w []) as Hc.
  destruct (fold_left (tick_effect character) l (w, [])) as [w1 R].
  cbn zeta in Hc. cbn [fst snd app] in *.
  apply (remove_effects_total character R w1 (map (effs w1) rest)).
  rewrite Hc. cbn. fold l. rewrite <- map_app. now apply Permutation_map.
Qed.

(** *** The pass over a list without repeated effect objects *)

Lemma tick_effect_effs (character : cref) (w : World) (to_remove : list eref)
  (effect x : eref) :
  effs (fst (tick_effect character (w, to_remove) effect)) x
  = if Nat.eqb x effect then ticked (effs w effect) else effs w x.
Proof.
  rewrite tick_effect_unfold. cbn [fst].
  assert (H1 : effs (if 0 <? StatusEffect.duration (effs w effect)
                     then set_eff effect (ticked (effs w effect)) w else w) x
               = if Nat.eqb x effect then ticked (effs w effect) else effs w x).
  { unfold ticked. destruct (0 <? _) eqn:Hpos; cbn; unfold upd;
      destruct (Nat.eqb_spec x effect) as [-> |]; reflexivity. }
  now destruct (StatusEffect.effect_type (effs w effect)).
Qed.

Lemma tick_effects_nodup (character : cref) (l : list eref) :
  NoDup l ->
  forall w to_remove,
    let out := fold_left (tick_effect character) l (w, to_remove) in
    (forall e, In e l -> effs (fst out) e = ticked (effs w e))
    /\ (forall e, ~ In e l -> effs (fst out) e = effs w e)
    /\ snd out
       = (to_remove
          ++ filter (fun e => StatusEffect.duration (ticked (effs w e)) =? 0) l)%list.
Proof.
  induction 1 as [| x l Hx Hnd IH]; intros w to_remove; cbn zeta;
    cbn [fold_left].
  - cbn. split; [intros e [] | split; [auto | now rewrite app_nil_r]].
  - pose proof (tick_effect_effs character w to_remove x) as Heffs.
    pose proof (tick_effect_unfold character w to_remove x) as Hun.
    destruct (tick_effect character (w, to_remove) x) as [w1 R1].
    cbn [fst] in Heffs. cbn zeta in Hun. apply (f_equal snd) in Hun.
    cbn [snd] in Hun.
    destruct (IH w1 R1) as (Hin & Hout & Hrem). cbn zeta in *.
    assert (Hother : forall e, e <> x -> effs w1 e = effs w e).
    { intros e He. rewrite Heffs. now apply Nat.eqb_neq in He as ->. }
    split; [| split].
    + intros e [<- | He].
      * rewrite (Hout x Hx), Heffs. now rewrite Nat.eqb_refl.
      * rewrite (Hin e He). f_equal. apply Hother. intros ->. contradiction.
    + intros e He. rewrite Hout by (intros Hl; apply He; now right).
      apply Hother. intros ->. apply He. now left.
    + rewrite Hrem, Hun. cbn [filter].
      assert (Hf : filter (fun e => StatusEffect.duration (ticked (effs w1 e)) =? 0) l
                   = filter (fun e => StatusEffect.duration (ticked (effs w e)) =? 0) l).
      { apply filter_ext_in. intros e He. rewrite Hother; auto.
        intros ->. contradiction. }
      rewrite Hf. destruct (_ =? 0); [now rewrite <- app_assoc | reflexivity].
Qed.

Lemma list_remove_first {A : Type} (same : A -> bool) (p l : list A) (x : A) :
  (forall y, In y p -> same y = false) -> same x = true ->
  list_remove same (p ++ x :: l) = Some (p ++ l)%list.
Proof.
  intros Hp Hx. induction p as [| y p IH]; cbn [app list_remove].
  - now rewrite Hx.
  - rewrite (Hp y) by now left. rewrite IH; auto.
    intros z Hz. apply Hp. now right.
Qed.

(** With every expired effect of the list queued, in list order, the
    second loop removes exactly the expired entries and reports each. *)
Lemma remove_effects_expired (character : cref) (h : eref -> StatusEffect.t) :
  forall l p w,
    (forall e, effs w e = h e) ->
    Character.status_effects (chars w character) = (p ++ l)%list ->
    (forall y, In y p -> StatusEffect.duration (h y) <> 0) ->
    exists w',
      fold_left (remove_effect character)
        (filter (fun e => StatusEffect.duration (h e) =? 0) l) (Some w) = Some w'
      /\ Character.status_effects (chars w' character)
         = (p ++ filter (fun e => negb (StatusEffect.duration (h e) =? 0)) l)%list
      /\ events w'
         = (events w
            ++ map (on_status_effect_removed character)
                 (filter (fun e => StatusEffect.duration (h e) =? 0) l))%list.
Proof.
  induction l as [| x l IH]; intros p w Hh Hl Hp; cbn [filter].
  - exists w. rewrite app_nil_r in Hl. cbn. rewrite !app_nil_r. auto.
  - destruct (StatusEffect.duration (h x) =? 0) eqn:Hz; cbn [negb fold_left map].
    + apply Z.eqb_eq in Hz.
      unfold remove_effect at 2. rewrite Hl.
      rewrite (list_remove_first _ p l x).
      * edestruct (IH p) as (w' & Hfold & Hse & Hev);
          [| | exact Hp | exists w'; split; [exact Hfold | split; [exact Hse |]]].
        -- exact Hh.
        -- cbn. now rewrite upd_same.
        -- rewrite Hev. cbn. now rewrite <- app_assoc.
      * intros y Hy. apply not_true_is_false. intros Heq.
        apply StatusEffect_eqb_eq in Heq. apply (Hp y Hy).
        rewrite <- Hh, Heq, Hh. exact Hz.
      * now apply StatusEffect_eqb_eq.
    + apply Z.eqb_neq in Hz.
      destruct (IH (p ++ [x])%list w Hh) as (w' & Hfold & Hse & Hev).
      * now rewrite <- app_assoc.
      * intros y Hy. apply in_app_or in Hy as [Hy | [<- | []]]; auto.
      * exists w'. rewrite <- app_assoc in Hse. now repeat split.
Qed.

(** C6. On a character whose status-effect list holds each effect
    object once, one round-start pass returns, lowers every positive
    duration by one and keeps exactly the effects whose duration is then
    not 0.  So an effect of duration 1 is gone after one pass (and its
    removal is reported), and an effect of duration 2 is still there
    with duration 1. *)
Theorem status_effect_expiry (character : cref) (w : World) :
  let l := Character.status_effects (chars w character) in
  NoDup l ->
  exists w',
    process_turn_based_effects character w = Some w'
    /\ (forall e, In e l -> effs w' e = ticked (effs w e))
    /\ Character.status_effects (chars w' character)
       = filter (fun e => negb (StatusEffect.duration (effs w' e) =? 0)) l
    /\ (forall e, In e l -> StatusEffect.duration (effs w e) = 1 ->
          ~ In e (Character.status_effects (chars w' character))
          /\ In (on_status_effect_removed character e) (events w'))
    /\ (forall e, In e l -> StatusEffect.duration (effs w e) = 2 ->
          In e (Character.status_effects (chars w' character))
          /\ StatusEffect.duration (effs w' e) = 1).
Proof.
  intros l Hnd. unfold process_turn_based_effects. fold l.
  destruct (tick_effects_nodup character l Hnd w []) as (Hin & _ & Hrem).
  pose proof (tick_effects_character character l w []) as Hc.
  destruct (fold_left (tick_effect character) l (w, [])) as [w1 R].
  cbn zeta in *. cbn [fst snd app] in *.
  assert (HR : R = filter (fun e => StatusEffect.duration (effs w1 e) =? 0) l).
  { rewrite Hrem. apply filter_ext_in. intros e He. now rewrite Hin. }
  destruct (remove_effects_expired character (effs w1) l [] w1)
    as (w' & Hfold & Hse & Hev);
    [reflexivity | rewrite Hc; reflexivity | intros y [] |].
  rewrite <- HR in Hfold, Hev. cbn [app] in Hse.
  destruct (remove_effects_frame character R w1 w' Hfold) as [_ Heffs].
  assert (Hse' : Character.status_effects (chars w' character)
                 = filter (fun e => negb (StatusEffect.duration (effs w' e) =? 0)) l).
  { rewrite Hse. apply filter_ext. intros e. now rewrite Heffs. }
  exists w'. split; [exact Hfold |]. split; [| split; [exact Hse' | split]].
  - intros e He. now rewrite Heffs, Hin.
  - intros e He Hd.
    assert (Hz : StatusEffect.duration (effs w1 e) = 0).
    { rewrite (Hin e He). unfold ticked. rewrite Hd. reflexivity. }
    split.
    + rewrite Hse'. intros Hkept. apply filter_In in Hkept as [_ Hkept].
      rewrite Heffs, Hz in Hkept. discriminate.
    + rewrite Hev. apply in_or_app. right. apply in_map. rewrite HR.
      apply filter_In. split; [exact He | now rewrite Hz].
  - intros e He Hd.
    assert (Hone : StatusEffect.duration (effs w1 e) = 1).
    { rewrite (Hin e He). unfold ticked. rewrite Hd. reflexivity. }
    split; [| now rewrite Heffs].
    rewrite Hse'. apply filter_In. split; [exact He |].
    now rewrite Heffs, Hone.
Qed.

Lemma status_effect_expiry_witness :
  exists w',
    process_turn_based_effects 1 two_effects_world = Some w'
    /\ ~ In 0%nat (Character.status_effects (chars w' 1))
    /\ In 1%nat (Character.status_effects (chars w' 1))
    /\ StatusEffect.duration (effs w' 1) = 1.
Proof.
  destruct (status_effect_expiry 1 two_effects_world)
    as (w' & Hpass & _ & _ & Hone & Htwo).
  - cbn. repeat constructor; cbn; intuition discriminate.
  - exists w'. split; [exact Hpass |].
    destruct (Hone 0%nat) as [Hgone _]; [cbn; auto | reflexivity |].
    destruct (Htwo 1%nat) as [Hkept Hdur]; [cbn; auto | reflexivity |].
    auto.
Defined.

(** ** Bounds on hp and chakra *)

(** Every constructed character starts with [hp] and [current_hp]
    equal and within [0, max_hp]. *)
Lemma post_init_hp (c : Character.t) :
  0 <= Character.max_hp c ->
  let c' := Character.post_init c in
  hp_bounds c' /\ current_hp_bounds c'
  /\ Character.current_hp c' = Character.hp c'.
Proof.
  intros Hmax. unfold Character.post_init, hp_bounds, current_hp_bounds.
  destruct (0 <? Character.hp c) eqn:Hpos; cbn;
    [apply Z.ltb_lt in Hpos | apply Z.ltb_ge in Hpos].
  - destruct (Character.max_hp c <? Character.hp c) eqn:Hover; cbn;
      [apply Z.ltb_lt in Hover | apply Z.ltb_ge in Hover]; lia.
  - rewrite Z.ltb_irrefl. cbn. lia.
Qed.

Lemma take_damage_in_bounds (amount : Z) (c : Character.t) :
  0 <= amount -> in_bounds c -> in_bounds (fst (Character.take_damage amount c)).
Proof.
  intros Hamt (Hhp & Hch & Hcur).
  destruct (Character.is_alive c) eqn:Ha.
  - destruct (take_damage_alive amount c Ha)
      as (Hhp' & Hcur' & _ & _ & Hch' & Hmax & Hmaxc).
    unfold in_bounds, hp_bounds, chakra_bounds, current_hp_bounds in *.
    rewrite Hcur', Hhp', Hch', Hmax, Hmaxc. lia.
  - rewrite take_damage_dead by assumption. exact (conj Hhp (conj Hch Hcur)).
Qed.

Lemma heal_in_bounds (amount : Z) (c : Character.t) :
  0 <= amount -> in_bounds c -> in_bounds (fst (Character.heal amount c)).
Proof.
  intros Hamt (Hhp & Hch & Hcur).
  destruct (Character.is_alive c) eqn:Ha.
  - destruct (heal_alive amount c Ha) as (Hhp' & Hcur' & _ & Hch' & Hmax & Hmaxc).
    unfold in_bounds, hp_bounds, chakra_bounds, current_hp_bounds in *.
    rewrite Hcur', Hhp', Hch', Hmax, Hmaxc. lia.
  - rewrite heal_dead by assumption. exact (conj Hhp (conj Hch Hcur)).
Qed.

Lemma pay_cost_in_bounds (caster : cref) (cost : Z) (w : World) (r : cref) :
  in_bounds (chars w r) -> in_bounds (chars (pay_cost caster cost w) r).
Proof.
  intros Hb. unfold pay_cost. destruct (0 <? cost) eqn:Hpos; [| exact Hb].
  apply Z.ltb_lt in Hpos. cbn. unfold upd.
  destruct (Nat.eqb_spec r caster) as [-> |]; [| exact Hb].
  destruct Hb as (Hhp & Hch & Hcur).
  unfold in_bounds, hp_bounds, chakra_bounds, current_hp_bounds in *. cbn. lia.
Qed.

(** One visit of the first loop keeps [hp] within bounds when the
    effect's magnitude is not negative. *)
Lemma tick_effect_hp_bounds (character : cref) (w : World)
  (to_remove : list eref) (effect : eref) :
  0 <= StatusEffect.value (effs w effect) ->
  hp_bounds (chars w character) ->
  hp_bounds (chars (fst (tick_effect character (w, to_remove) effect)) character).
Proof.
  intros Hv Hb. rewrite tick_effect_unfold. cbn [fst].
  set (w1 := if 0 <? _ then _ else _).
  assert (Hc : chars w1 character = chars w character).
  { subst w1. now destruct (0 <? _). }
  unfold hp_bounds in *.
  destruct (StatusEffect.effect_type (effs w effect));
    cbn [chars emit set_char]; rewrite ?upd_same, ?Hc; cbn; lia.
Qed.

Lemma pass_frame_value (character : cref) (w w' : World) :
  pass_frame character w w' ->
  (forall e, 0 <= StatusEffect.value (effs w e)) ->
  forall e, 0 <= StatusEffect.value (effs w' e).
Proof.
  intros Hf Hv e. rewrite (frame_effs _ _ _ Hf e). cbn. apply Hv.
Qed.

Lemma tick_effects_hp_bounds (character : cref) (l : list eref) :
  forall w to_remove,
    (forall e, 0 <= StatusEffect.value (effs w e)) ->
    hp_bounds (chars w character) ->
    hp_bounds
      (chars (fst (fold_left (tick_effect character) l (w, to_remove))) character).
Proof.
  induction l as [| e l IH]; intros w to_remove Hv Hb; cbn [fold_left];
    [exact Hb |].
  pose proof (tick_effect_hp_bounds character w to_remove e (Hv e) Hb) as Hb1.
  pose proof (tick_effect_frame character w to_remove e) as Hf.
  destruct (tick_effect character (w, to_remove) e) as [w1 R1].
  cbn [fst] in *. apply IH; [| exact Hb1].
  now apply (pass_frame_value character w w1).
Qed.

Lemma remove_effects_hp (character : cref) (l : list eref) :
  forall w w',
    fold_left (remove_effect character) l (Some w) = Some w' ->
    Character.hp (chars w' character) = Character.hp (chars w character).
Proof.
  induction l as [| e l IH]; intros w w'; cbn [fold_left].
  - now intros [= <-].
  - unfold remove_effect at 2. destruct (list_remove _ _) as [l' |].
    + intros Hrest. rewrite (IH _ _ Hrest). cbn. now rewrite upd_same.
    + now rewrite remove_effects_none.
Qed.

(** The whole pass keeps every character within bounds. *)
Lemma process_turn_based_effects_in_bounds (character : cref) (w w' : World)
  (r : cref) :
  (forall e, 0 <= StatusEffect.value (effs w e)) ->
  process_turn_based_effects character w = Some w' ->
  in_bounds (chars w r) -> in_bounds (chars w' r).
Proof.
  intros Hv Hpass Hb.
  pose proof (process_turn_based_effects_frame character w w' Hpass) as Hf.
  destruct (Nat.eq_dec r character) as [-> | Hr];
    [| now rewrite (frame_others _ _ _ Hf r Hr)].
  assert (Hhp : hp_bounds (chars w' character)).
  { unfold process_turn_based_effects in Hpass.
    pose proof (tick_effects_hp_bounds character
                  (Character.status_effects (chars w character)) w [] Hv
                  (proj1 Hb)) as H1.
    pose proof (tick_effects_character character
                  (Character.status_effects (chars w character)) w []) as Hc.
    destruct (fold_left (tick_effect character) _ _) as [w1 R].
    cbn zeta in Hc. cbn [fst] in *.
    apply remove_effects_hp in Hpass as Hhp.
    apply remove_effects_frame in Hpass as [Hf2 _].
    unfold hp_bounds in *. rewrite Hhp.
    rewrite (frame_character _ _ _ Hf2). cbn.
    rewrite Hc in H1. cbn in H1. rewrite Hc. cbn. exact H1. }
  destruct Hb as (_ & Hch & Hcur).
  unfold in_bounds, hp_bounds, chakra_bounds, current_hp_bounds in *.
  rewrite (frame_character _ _ _ Hf) in *. cbn in *. lia.
Qed.

(** *** The round-start loop *)

Lemma round_frame_refl (w : World) : round_frame w w.
Proof.
  constructor; auto.
  - intros r. now destruct (chars w r).
  - intros e. now rewrite set_duration_same.
Qed.

Lemma round_frame_trans (w1 w2 w3 : World) :
  round_frame w1 w2 -> round_frame w2 w3 -> round_frame w1 w3.
Proof.
  intros [Hc1 He1 Hb1 Hq1] [Hc2 He2 Hb2 Hq2]. constructor.
  - intros r. specialize (Hc1 r). specialize (Hc2 r). revert Hc1 Hc2.
    generalize (chars w1 r), (chars w2 r), (chars w3 r).
    intros x1 x2 x3 -> ->. reflexivity.
  - intros e. specialize (He1 e). specialize (He2 e). revert He1 He2.
    generalize (effs w1 e), (effs w2 e), (effs w3 e).
    intros y1 y2 y3 -> ->. reflexivity.
  - congruence.
  - congruence.
Qed.

Lemma pass_frame_round (character : cref) (w w' : World) :
  pass_frame character w w' -> round_frame w w'.
Proof.
  intros [Ho Hc He Hb Hq]. constructor; auto.
  intros r. destruct (Nat.eq_dec r character) as [-> | Hr].
  - revert Hc. generalize (chars w character), (chars w' character).
    intros x x' ->. reflexivity.
  - rewrite (Ho r Hr). now destruct (chars w r).
Qed.

Lemma round_frame_facts (w w' : World) (r : cref) :
  round_frame w w' -> round_chars_eq r w w'.
Proof.
  intros Hf. unfold round_chars_eq, alive. rewrite (round_chars _ _ Hf r).
  cbn. auto 10.
Qed.

Lemma round_start_character_none (character : cref) :
  round_start_character None character = None.
Proof. reflexivity. Qed.

(** The loop body always returns, stays within the frame and keeps a
    sound character within bounds. *)
Lemma round_start_character_spec (w : World) (character : cref) :
  exists w',
    round_start_character (Some w) character = Some w'
    /\ round_frame w w'
    /\ forall r, sound_at r w -> sound_at r w'.
Proof.
  unfold round_start_character. destruct (alive w character) eqn:Ha; cbn [negb].
  2: { exists w. split; [reflexivity | split; [apply round_frame_refl | auto]]. }
  set (c := chars w character).
  set (w1 := set_char character
               (Character.set_chakra
                  (Z.min (Character.chakra c + Character.chakra_regen c)
                         (Character.max_chakra c)) c) w).
  destruct (process_turn_based_effects_total character w1) as [w' Hpass].
  exists w'. split; [exact Hpass |].
  assert (Hf1 : round_frame w w1).
  { constructor; cbn; auto.
    - intros r. unfold upd. destruct (Nat.eqb_spec r character) as [-> |].
      + fold c. now destruct c.
      + now destruct (chars w r).
    - intros e. now rewrite set_duration_same. }
  pose proof (process_turn_based_effects_frame character w1 w' Hpass) as Hf2.
  assert (Hf : round_frame w w').
  { eapply round_frame_trans;
      [exact Hf1 | exact (pass_frame_round character w1 w' Hf2)]. }
  split; [exact Hf |].
  intros r (Hv & Hregen & Hb).
  assert (Hv' : forall e, 0 <= StatusEffect.value (effs w' e)).
  { now apply (pass_frame_value character w1 w'). }
  assert (Hb1 : in_bounds (chars w1 r)).
  { subst w1. cbn. unfold upd. destruct (Nat.eqb_spec r character) as [-> |];
      [| exact Hb].
    fold c in Hb, Hregen. destruct Hb as (Hhp & Hch & Hcur).
    unfold in_bounds, hp_bounds, chakra_bounds, current_hp_bounds in *.
    cbn. lia. }
  split; [exact Hv' | split].
  - destruct (round_frame_facts w w' r Hf) as (_ & _ & -> & _). exact Hregen.
  - now apply (process_turn_based_effects_in_bounds character w1 w' r).
Qed.

Lemma round_start_characters_none (l : list cref) :
  fold_left round_start_character l None = None.
Proof. induction l; cbn; auto. Qed.

Lemma round_start_characters_spec (l : list cref) :
  forall w,
  exists w',
    fold_left round_start_character l (Some w) = Some w'
    /\ round_frame w w'
    /\ forall r, sound_at r w -> sound_at r w'.
Proof.
  induction l as [| c l IH]; intros w; cbn [fold_left].
  - exists w. split; [reflexivity | split; [apply round_frame_refl | auto]].
  - destruct (round_start_character_spec w c) as (w1 & -> & Hf1 & Hs1).
    destruct (IH w1) as (w' & Hfold & Hf & Hs).
    exists w'. split; [exact Hfold | split].
    + eapply round_frame_trans; eauto.
    + auto.
Qed.

(** ** Shuffling and sorting *)

Lemma set_nth_keeps {A : Type} (l : list A) :
  forall i j b, nth_error l j = Some b -> nth_error (set_nth i b l) j = Some b.
Proof.
  induction l as [| h t IH]; intros i j b Hj; [now destruct j |].
  destruct i, j; cbn in *; auto.
Qed.

Lemma set_nth_perm {A : Type} (l : list A) :
  forall j a b,
    nth_error l j = Some b -> Permutation (b :: set_nth j a l) (a :: l).
Proof.
  induction l as [| h t IH]; intros j a b Hj; [now destruct j |].
  destruct j; cbn in *.
  - injection Hj as ->. apply perm_swap.
  - rewrite perm_swap. rewrite (IH j a b Hj). apply perm_swap.
Qed.

Lemma swap_perm {A : Type} (i j : nat) (l : list A) :
  Permutation (swap i j l) l.
Proof.
  unfold swap.
  destruct (nth_error l i) as [xi |] eqn:Hi; [| reflexivity].
  destruct (nth_error l j) as [xj |] eqn:Hj; [| reflexivity].
  apply (Permutation_cons_inv (a := xj)).
  rewrite (set_nth_perm (set_nth i xj l) j xi xj) by now apply set_nth_keeps.
  now apply set_nth_perm.
Qed.

(** Inside the list, [swap] is the exchange of the two items. *)
Lemma swap_in_range {A : Type} (i j : nat) (l : list A) :
  (i < List.length l)%nat -> (j < List.length l)%nat ->
  exists xi xj,
    nth_error l i = Some xi /\ nth_error l j = Some xj
    /\ swap i j l = set_nth j xi (set_nth i xj l).
Proof.
  intros Hi Hj. unfold swap.
  destruct (nth_error l i) as [xi |] eqn:Ei;
    [| apply nth_error_None in Ei; lia].
  destruct (nth_error l j) as [xj |] eqn:Ej;
    [| apply nth_error_None in Ej; lia].
  now exists xi, xj.
Qed.

Section ShuffleFacts.
Context {G : Type} `{RandomSource G} {A : Type}.

(** The index drawn at position [i] of the shuffle is in range. *)
Lemma shuffle_draw_in_range (g : G) (i : nat) (x : list A) :
  (i < List.length x)%nat ->
  (fst (randbelow g (S i)) < List.length x)%nat.
Proof.
  intros Hi. pose proof (randbelow_lt g (S i) (Nat.lt_0_succ i)). lia.
Qed.

Lemma shuffle_from_perm (i : nat) :
  forall (g : G) (x : list A), Permutation (fst (shuffle_from i g x)) x.
Proof.
  induction i as [| i IH]; intros g x; cbn [shuffle_from]; [reflexivity |].
  destruct (randbelow g (S (S i))) as [j g'].
  rewrite IH. apply swap_perm.
Qed.

Lemma shuffle_perm (g : G) (x : list A) : Permutation (fst (shuffle g x)) x.
Proof. apply shuffle_from_perm. Qed.
End ShuffleFacts.

Section SortFacts.
Context {A : Type} (key : A -> Z).

Lemma insert_desc_perm (x : A) (l : list A) :
  Permutation (insert_desc key x l) (x :: l).
Proof.
  induction l as [| y t IH]; cbn [insert_desc]; [reflexivity |].
  destruct (key x <? key y); [| reflexivity].
  rewrite IH. apply perm_swap.
Qed.

Lemma sort_desc_perm (l : list A) : Permutation (sort_desc key l) l.
Proof.
  induction l as [| x l IH]; cbn; [reflexivity |].
  rewrite insert_desc_perm. now apply perm_skip.
Qed.

Lemma insert_desc_sorted (x : A) (l : list A) :
  StronglySorted (by_key_desc key) l ->
  StronglySorted (by_key_desc key) (insert_desc key x l).
Proof.
  induction 1 as [| y t Hs IH Hy]; cbn [insert_desc].
  - repeat constructor.
  - destruct (key x <? key y) eqn:Hlt.
    + apply Z.ltb_lt in Hlt. constructor; [exact IH |].
      eapply Permutation_Forall; [symmetry; apply insert_desc_perm |].
      constructor; [unfold by_key_desc; lia | exact Hy].
    + apply Z.ltb_ge in Hlt. constructor; [now constructor |].
      constructor; [exact Hlt |].
      eapply Forall_impl; [| exact Hy]. unfold by_key_desc. intros; lia.
Qed.

Lemma sort_desc_sorted (l : list A) :
  StronglySorted (by_key_desc key) (sort_desc key l).
Proof.
  induction l as [| x l IH]; cbn; [constructor | now apply insert_desc_sorted].
Qed.

(** Insertion never passes an item of the same key. *)
Lemma insert_desc_stable (v : Z) (x : A) (l : list A) :
  filter (fun a => key a =? v) (insert_desc key x l)
  = filter (fun a => key a =? v) (x :: l).
Proof.
  induction l as [| y t IH]; cbn [insert_desc]; [reflexivity |].
  destruct (key x <? key y) eqn:Hlt; [| reflexivity].
  apply Z.ltb_lt in Hlt. cbn [filter] in *. rewrite IH.
  destruct (key x =? v) eqn:Hx, (key y =? v) eqn:Hy; try reflexivity.
  apply Z.eqb_eq in Hx, Hy. lia.
Qed.

(** Stability: among the items of any one key, the sort keeps the
    order of its input. *)
Lemma sort_desc_stable (v : Z) (l : list A) :
  filter (fun a => key a =? v) (sort_desc key l)
  = filter (fun a => key a =? v) l.
Proof.
  induction l as [| x l IH]; cbn [sort_desc fold_right]; [reflexivity |].
  fold (sort_desc key l). rewrite insert_desc_stable. cbn [filter].
  now rewrite IH.
Qed.
End SortFacts.

(** ** Round preparation *)

Section RoundFacts.
Context {G : Type} `{RandomSource G}.

Lemma collect_alive_filter (w : World) :
  collect_alive w
  = filter (alive w)
      (BattleTeam.characters (BattleState.team_a (battle_state w))
       ++ BattleTeam.characters (BattleState.team_b (battle_state w))).
Proof.
  unfold collect_alive. cbn [flat_map]. now rewrite app_nil_r, filter_app.
Qed.

(** [_calculate_turn_order] touches the turn order, the cursor and the
    event log only. *)
Lemma calculate_turn_order_spec (g : G) (w : World) :
  let w' := fst (calculate_turn_order g w) in
  let b := battle_state w in
  chars w' = chars w
  /\ effs w' = effs w
  /\ battle_state w'
     = BattleState.mk (BattleState.team_a b) (BattleState.team_b b)
         (BattleState.current_round b)
         (sort_desc (fun c => Character.speed (chars w c))
            (fst (shuffle g (collect_alive w))))
         0
  /\ snd (calculate_turn_order g w) = snd (shuffle g (collect_alive w)).
Proof.
  cbn zeta. unfold calculate_turn_order.
  destruct (shuffle g (collect_alive w)) as [shuffled g']. cbn [fst snd].
  destruct (sort_desc _ shuffled); cbn; auto.
Qed.

(** [_prepare_new_round] always returns: it bumps the round counter,
    runs the loop over both rosters, and hands the world to
    [_calculate_turn_order]. *)
Lemma prepare_new_round_spec (g : G) (w : World) :
  exists w2,
    prepare_new_round g w
    = Some (calculate_turn_order g (emit on_round_start w2))
    /\ (forall r, round_chars_eq r w w2)
    /\ BattleState.team_a (battle_state w2) = BattleState.team_a (battle_state w)
    /\ BattleState.team_b (battle_state w2) = BattleState.team_b (battle_state w)
    /\ BattleState.current_round (battle_state w2)
       = BattleState.current_round (battle_state w) + 1
    /\ forall r, sound_at r w -> sound_at r w2.
Proof.
  unfold prepare_new_round. cbn [fold_left].
  set (w1 := set_battle_state _ w).
  rewrite <- fold_left_app.
  destruct (round_start_characters_spec
              (BattleTeam.characters (BattleState.team_a (battle_state w1))
               ++ BattleTeam.characters (BattleState.team_b (battle_state w1)))
              w1) as (w2 & -> & Hf & Hs).
  exists w2. split; [reflexivity |].
  rewrite (round_battle_state _ _ Hf).
  split; [intros r; apply (round_frame_facts w1 w2 r Hf) |].
  split; [reflexivity | split; [reflexivity | split; [reflexivity |]]].
  exact Hs.
Qed.
End RoundFacts.

(** C9. Round preparation always returns.  The turn order it leaves is
    the stable descending-speed sort of the shuffled list of living
    characters of both teams: a permutation of those characters (so no
    defeated character, and no repetition when the rosters have none),
    in non-increasing order of speed, with characters of equal speed in
    the order the shuffle put them, which the generator state alone
    decides.  The cursor is 0 and the teams are the ones it started
    with. *)
Theorem turn_order_after_round_preparation {G : Type} `{RandomSource G}
  (g : G) (w : World) :
  exists w' g',
    prepare_new_round g w = Some (w', g')
    /\ let b := battle_state w' in
       let roster := (BattleTeam.characters (BattleState.team_a b)
                      ++ BattleTeam.characters (BattleState.team_b b))%list in
       let living := filter (alive w') roster in
       let speed := fun c => Character.speed (chars w' c) in
       let order := BattleState.turn_order b in
       BattleState.team_a b = BattleState.team_a (battle_state w)
       /\ BattleState.team_b b = BattleState.team_b (battle_state w)
       /\ Permutation order living
       /\ (forall c, In c order -> In c roster /\ alive w' c = true)
       /\ (NoDup roster -> NoDup order)
       /\ StronglySorted (by_key_desc speed) order
       /\ order = sort_desc speed (fst (shuffle g living))
       /\ (forall v, filter (fun c => speed c =? v) order
                     = filter (fun c => speed c =? v) (fst (shuffle g living)))
       /\ g' = snd (shuffle g living)
       /\ BattleState.current_character_index b = 0.
Proof.
  destruct (prepare_new_round_spec g w) as (w2 & Hprep & _ & Hta & Htb & _).
  set (w3 := emit on_round_start w2) in *.
  destruct (calculate_turn_order_spec g w3) as (Hchars & _ & Hbs & Hg).
  cbn zeta in *.
  destruct (calculate_turn_order g w3) as [w' g']. cbn [fst snd] in *.
  exists w', g'. split; [exact Hprep |].
  assert (Halive : alive w' = alive w3) by (unfold alive; now rewrite Hchars).
  rewrite Hbs, Halive, Hchars. cbn [BattleState.team_a BattleState.team_b
    BattleState.turn_order BattleState.current_character_index].
  rewrite collect_alive_filter in *.
  set (roster := (BattleTeam.characters (BattleState.team_a (battle_state w3))
                  ++ BattleTeam.characters (BattleState.team_b (battle_state w3)))%list)
    in *.
  set (living := filter (alive w3) roster) in *.
  set (speed := fun c => Character.speed (chars w3 c)).
  assert (Hperm : Permutation (sort_desc speed (fst (shuffle g living))) living).
  { rewrite sort_desc_perm. apply shuffle_perm. }
  split; [exact Hta | split; [exact Htb |]].
  split; [exact Hperm |]. split; [| split; [| split; [| split; [| split]]]].
  - intros c Hc. apply (Permutation_in _ Hperm) in Hc.
    now apply filter_In in Hc.
  - intros Hnd. apply (Permutation_NoDup (Permutation_sym Hperm)).
    now apply NoDup_filter.
  - apply sort_desc_sorted.
  - reflexivity.
  - intros v. apply sort_desc_stable.
  - split; [exact Hg | reflexivity].
Qed.

Lemma turn_order_after_round_preparation_witness :
  exists w' g',
    prepare_new_round 0%nat test_world = Some (w', g')
    /\ BattleState.turn_order (battle_state w') = [0%nat; 1%nat]
    /\ NoDup (BattleState.turn_order (battle_state w'))
    /\ BattleState.current_character_index (battle_state w') = 0.
Proof.
  destruct (turn_order_after_round_preparation 0%nat test_world)
    as (w' & g' & Hprep & Hta & Htb & _ & _ & Hnd & _ & _ & _ & _ & Hcur).
  exists w', g'. split; [exact Hprep |].
  split; [| split; [| exact Hcur]].
  - vm_compute in Hprep. injection Hprep as <- _. reflexivity.
  - apply Hnd. rewrite Hta, Htb. cbn.
    repeat constructor; cbn; intuition discriminate.
Defined.

(** With two characters of equal speed the generator state decides who
    goes first, and the same state gives the same order again. *)
Example equal_speed_order_follows_the_seed :
  (exists w' g', prepare_new_round 0%nat tie_world = Some (w', g')
                 /\ BattleState.turn_order (battle_state w') = [1%nat; 0%nat])
  /\ (exists w' g', prepare_new_round 1%nat tie_world = Some (w', g')
                    /\ BattleState.turn_order (battle_state w') = [0%nat; 1%nat]).
Proof.
  split; eexists; eexists; (split; [vm_compute; reflexivity | reflexivity]).
Qed.

(** A plain attack always passes a positive amount to [take_damage]. *)
Lemma execute_attack_in_bounds (action : Action.t) (result : ActionResult.t)
  (w : World) (r : cref) :
  in_bounds (chars w r) ->
  in_bounds (chars (fst (execute_attack action result w)) r).
Proof.
  intros Hb. unfold execute_attack.
  destruct (Action.target action) as [target |]; [| exact Hb].
  destruct (alive w target); cbn [negb]; [| exact Hb].
  pose proof (take_damage_in_bounds
                (Z.max 1 (Character.attack (chars w (Action.character action))
                          - Character.defense (chars w target) / 2))
                (chars w target)) as Htd.
  destruct (Character.take_damage _ (chars w target)) as [t' dmg].
  cbn [fst] in *. cbn. unfold upd.
  destruct (Nat.eqb_spec r target) as [-> |]; [| exact Hb].
  apply Htd; [lia | exact Hb].
Qed.

Lemma take_damage_attack (amount : Z) (c : Character.t) :
  Character.attack (fst (Character.take_damage amount c)) = Character.attack c.
Proof.
  unfold Character.take_damage.
  destruct (Character.is_alive c); cbn -[Z.min]; [| reflexivity].
  now destruct (_ <=? 0).
Qed.

Lemma heal_attack (amount : Z) (c : Character.t) :
  Character.attack (fst (Character.heal amount c)) = Character.attack c.
Proof. unfold Character.heal. now destruct (Character.is_alive c). Qed.

(** One skill effect keeps every character's attack, and keeps every
    character within bounds when its amount is not negative. *)
Lemma apply_skill_effect_in_bounds (caster target : cref) (w : World)
  (result : ActionResult.t) (effect : Effect) :
  let w' := fst (apply_skill_effect caster target (w, result) effect) in
  (forall r, Character.attack (chars w' r) = Character.attack (chars w r))
  /\ (effect_nonneg (Character.attack (chars w caster)) effect ->
      forall r, in_bounds (chars w r) -> in_bounds (chars w' r)).
Proof.
  cbn zeta. destruct effect as [b s | b s |]; cbn [apply_skill_effect effect_nonneg].
  - pose proof (take_damage_attack
                  (calculate_damage b s (Character.attack (chars w caster)))
                  (chars w target)) as Hatk.
    pose proof (take_damage_in_bounds
                  (calculate_damage b s (Character.attack (chars w caster)))
                  (chars w target)) as Hb.
    destruct (Character.take_damage _ _) as [t' dmg]. cbn [fst] in *.
    split; intros; cbn; unfold upd;
      destruct (Nat.eqb_spec r target) as [-> |]; auto.
  - pose proof (heal_attack
                  (calculate_healing b s (Character.attack (chars w caster)))
                  (chars w target)) as Hatk.
    pose proof (heal_in_bounds
                  (calculate_healing b s (Character.attack (chars w caster)))
                  (chars w target)) as Hb.
    destruct (Character.heal _ _) as [t' amt]. cbn [fst] in *.
    split; intros; cbn; unfold upd;
      destruct (Nat.eqb_spec r target) as [-> |]; auto.
  - split; auto.
Qed.

Lemma apply_skill_effects_in_bounds (caster target : cref)
  (effects : list Effect) :
  forall w result,
    (forall e, In e effects ->
               effect_nonneg (Character.attack (chars w caster)) e) ->
    forall r,
      in_bounds (chars w r) ->
      in_bounds
        (chars (fst (fold_left (apply_skill_effect caster target) effects
                       (w, result))) r).
Proof.
  induction effects as [| e effects IH]; intros w result Hnn r Hb;
    cbn [fold_left]; [exact Hb |].
  destruct (apply_skill_effect_in_bounds caster target w result e)
    as [Hatk Hstep].
  destruct (apply_skill_effect caster target (w, result) e) as [w1 r1].
  cbn [fst] in *. apply IH.
  - intros e' He'. rewrite Hatk. apply Hnn. now right.
  - apply Hstep; [apply Hnn; now left | exact Hb].
Qed.

(** A skill whose effects compute non-negative amounts keeps every
    character within bounds. *)
Lemma execute_skill_in_bounds (action : Action.t) (result : ActionResult.t)
  (w : World) (r : cref) :
  (forall skill e,
      Action.skill action = Some skill -> In e (Skill.effects skill) ->
      effect_nonneg (Character.attack (chars w (Action.character action))) e) ->
  in_bounds (chars w r) ->
  in_bounds (chars (fst (execute_skill action result w)) r).
Proof.
  intros Hnn Hb. unfold execute_skill.
  destruct (Action.skill action) as [skill |]; [| exact Hb].
  destruct (Action.target action) as [target |]; [| exact Hb].
  destruct (alive w target); cbn [negb]; [| exact Hb].
  pose proof (apply_skill_effects_in_bounds (Action.character action) target
                (Skill.effects skill)
                (pay_cost (Action.character action) (skill_cost skill) w)
                result) as Hfold.
  destruct (fold_left _ _ _) as [w2 r2]. cbn [fst] in *.
  apply Hfold; [| now apply pay_cost_in_bounds].
  intros e He.
  assert (Hatk : Character.attack
                   (chars (pay_cost (Action.character action) (skill_cost skill) w)
                      (Action.character action))
                 = Character.attack (chars w (Action.character action))).
  { unfold pay_cost. destruct (0 <? skill_cost skill); [| reflexivity].
    cbn. now rewrite upd_same. }
  rewrite Hatk. now apply (Hnn skill).
Qed.

(** C2. Each operation of the engine keeps every character within
    0 <= hp <= max_hp and 0 <= chakra <= max_chakra (and the internal
    [current_hp] within the same range as [hp]): [take_damage] and
    [heal] with a non-negative amount, a plain attack, the deduction of
    a skill's cost, a whole skill whose effects compute non-negative
    amounts, the round-start pass with non-negative effect magnitudes,
    and a whole round preparation with non-negative chakra regeneration
    as well.  The pass and the preparation always return. *)
Theorem bounds_are_preserved :
  (forall amount c,
      0 <= amount -> in_bounds c ->
      in_bounds (fst (Character.take_damage amount c)))
  /\ (forall amount c,
        0 <= amount -> in_bounds c ->
        in_bounds (fst (Character.heal amount c)))
  /\ (forall action result w r,
        in_bounds (chars w r) ->
        in_bounds (chars (fst (execute_attack action result w)) r))
  /\ (forall caster cost w r,
        in_bounds (chars w r) -> in_bounds (chars (pay_cost caster cost w) r))
  /\ (forall action result w r,
        (forall skill e,
            Action.skill action = Some skill -> In e (Skill.effects skill) ->
            effect_nonneg
              (Character.attack (chars w (Action.character action))) e) ->
        in_bounds (chars w r) ->
        in_bounds (chars (fst (execute_skill action result w)) r))
  /\ (forall character w r,
        (forall e, 0 <= StatusEffect.value (effs w e)) ->
        in_bounds (chars w r) ->
        exists w',
          process_turn_based_effects character w = Some w'
          /\ in_bounds (chars w' r))
  /\ (forall (G : Type) (S : RandomSource G) (g : G) w r,
        sound_at r w ->
        exists w' g',
          prepare_new_round g w = Some (w', g') /\ in_bounds (chars w' r)).
Proof.
  split; [exact take_damage_in_bounds |].
  split; [exact heal_in_bounds |].
  split; [exact execute_attack_in_bounds |].
  split; [exact pay_cost_in_bounds |].
  split; [exact execute_skill_in_bounds |].
  split.
  - intros character w r Hv Hb.
    destruct (process_turn_based_effects_total character w) as [w' Hpass].
    exists w'. split; [exact Hpass |].
    now apply (process_turn_based_effects_in_bounds character w w' r).
  - intros G S g w r Hs.
    destruct (prepare_new_round_spec g w) as (w2 & Hprep & _ & _ & _ & _ & Hs2).
    destruct (calculate_turn_order_spec g (emit on_round_start w2))
      as (Hchars & _).
    cbn zeta in Hchars.
    destruct (calculate_turn_order g (emit on_round_start w2)) as [w' g'].
    cbn [fst] in Hchars.
    exists w', g'. split; [exact Hprep |].
    rewrite Hchars. apply (Hs2 r Hs).
Qed.

Lemma bounds_are_preserved_witness :
  in_bounds (fst (Character.take_damage 30 character2))
  /\ in_bounds (fst (Character.heal 30 character2))
  /\ exists w' g',
       prepare_new_round 0%nat poisoned_world = Some (w', g')
       /\ in_bounds (chars w' 1).
Proof.
  destruct bounds_are_preserved as (Hdamage & Hheal & _ & _ & _ & _ & Hround).
  assert (Hb : in_bounds character2).
  { unfold in_bounds, hp_bounds, chakra_bounds, current_hp_bounds. cbn. lia. }
  split; [apply Hdamage; [lia | exact Hb] |].
  split; [apply Hheal; [lia | exact Hb] |].
  apply (Hround nat counter_source 0%nat poisoned_world 1%nat).
  split; [| split].
  - intros [| [| e]]; cbn; lia.
  - cbn. lia.
  - unfold in_bounds, hp_bounds, chakra_bounds, current_hp_bounds. cbn. lia.
Defined.

(** ** tests/test_battle.py, run on the embedding *)

(** [test_start_battle] *)
Example test_start_battle :
  exists w g,
    start_battle 0%nat test_world = Some (w, g)
    /\ events w = [on_battle_start; on_round_start; on_turn_start 0]
    /\ BattleState.current_round (battle_state w) = 1
    /\ BattleState.turn_order (battle_state w) = [0%nat; 1%nat].
Proof. eexists. eexists. split; [vm_compute; reflexivity | repeat split]. Qed.

(** [test_execute_attack_action], and the scenario of the specification:
    attack 50 against defense 40 takes 100 hp down to 70. *)
Example test_execute_attack_action :
  exists w g over,
    execute_action attack_action 0%nat test_world = Some (w, g, over)
    /\ Character.hp (chars w 1) = 70
    /\ Character.hp (chars w 1) < Character.max_hp (chars w 1)
    /\ over = false.
Proof.
  eexists. eexists. eexists. split; [vm_compute; reflexivity | repeat split].
Qed.

(** [test_execute_skill_action]: the skill costs 20 of 100 chakra and
    deals 20 + 50 * 50 // 100 = 45. *)
Example test_execute_skill_action :
  exists w0 g0 w g over,
    start_battle 0%nat test_world = Some (w0, g0)
    /\ execute_action skill_action g0 w0 = Some (w, g, over)
    /\ Character.chakra (chars w 0) = 80
    /\ Character.hp (chars w 1) = 55
    /\ BattleState.current_character_index (battle_state w) = 1.
Proof.
  eexists. eexists. eexists. eexists. eexists.
  split; [vm_compute; reflexivity |].
  split; [vm_compute; reflexivity | repeat split].
Qed.

(** [test_is_battle_over] *)
Example test_is_battle_over :
  is_battle_over test_world = false
  /\ get_winning_team test_world = None
  /\ is_battle_over (set_char 1 (defeated character2) test_world) = true
  /\ get_winning_team (set_char 1 (defeated character2) test_world)
     = Some TEAM_A.
Proof. repeat split. Qed.

(** [test_next_turn] *)
Example test_next_turn :
  exists w0 g0 w g over,
    start_battle 0%nat test_world = Some (w0, g0)
    /\ next_turn g0 w0 = Some (w, g, over)
    /\ BattleState.current_character_index (battle_state w0) = 0
    /\ BattleState.current_character_index (battle_state w) = 1.
Proof.
  eexists. eexists. eexists. eexists. eexists.
  split; [vm_compute; reflexivity |].
  split; [vm_compute; reflexivity | repeat split].
Qed.

(** * Further properties of the engine *)

(** ** Construction and cloning of characters *)

(** X1. Whatever [hp] a character is constructed with, as long as
    [max_hp] is positive it starts with 0 < hp <= max_hp and with
    [current_hp] equal to [hp]: an [hp] within range is kept, any other
    is replaced by [max_hp].  Running the initialisation again changes
    nothing. *)
Theorem constructed_character_is_healthy (c : Character.t) :
  0 < Character.max_hp c ->
  let c' := Character.post_init c in
  0 < Character.hp c' <= Character.max_hp c'
  /\ Character.current_hp c' = Character.hp c'
  /\ (0 < Character.hp c <= Character.max_hp c ->
      Character.hp c' = Character.hp c)
  /\ (Character.hp c <= 0 \/ Character.max_hp c < Character.hp c ->
      Character.hp c' = Character.max_hp c)
  /\ Character.post_init c' = c'.
Proof.
  intros Hmax. destruct c as [n hp mhp ch mch atk def spd i sk se al rg pc cur].
  cbn in Hmax. cbn zeta. unfold Character.post_init. cbn.
  destruct (0 <? hp) eqn:Hpos; cbn;
    [apply Z.ltb_lt in Hpos | apply Z.ltb_ge in Hpos].
  - destruct (mhp <? hp) eqn:Hover; cbn;
      [apply Z.ltb_lt in Hover | apply Z.ltb_ge in Hover].
    + assert (E1 : (0 <? mhp) = true) by (apply Z.ltb_lt; lia).
      rewrite E1. cbn. rewrite Z.ltb_irrefl. repeat split; lia.
    + assert (E1 : (0 <? hp) = true) by (apply Z.ltb_lt; lia).
      assert (E2 : (mhp <? hp) = false) by (apply Z.ltb_ge; lia).
      rewrite E1. cbn. rewrite E2. repeat split; lia.
  - rewrite Z.ltb_irrefl. cbn.
    assert (E1 : (0 <? mhp) = true) by (apply Z.ltb_lt; lia).
    rewrite E1. cbn. rewrite Z.ltb_irrefl. repeat split; lia.
Qed.

Lemma constructed_character_is_healthy_witness :
  Character.hp (new_character "x" (-5) 100 0 100 10 10 10) = 100
  /\ Character.hp (new_character "x" 250 100 0 100 10 10 10) = 100
  /\ Character.hp (new_character "x" 40 100 0 100 10 10 10) = 40.
Proof.
  split; [| split].
  - apply (constructed_character_is_healthy
             (Character.mk "x" (-5) 100 0 100 10 10 10 "" [] [] true 10 false 0));
      cbn; lia.
  - apply (constructed_character_is_healthy
             (Character.mk "x" 250 100 0 100 10 10 10 "" [] [] true 10 false 0));
      cbn; lia.
  - apply (constructed_character_is_healthy
             (Character.mk "x" 40 100 0 100 10 10 10 "" [] [] true 10 false 0));
      cbn; lia.
Defined.

(** X2. A clone has an empty [id] and otherwise the stats, chakra,
    lists and flags of the original; its [current_hp] equals its [hp].
    An [hp] within 0 < hp <= max_hp is carried over, but a character at
    [hp] <= 0 is cloned at full [max_hp] while its [is_alive] flag is
    copied as it is. *)
Theorem clone_copies_all_but_id_and_resets_hp (c : Character.t) :
  let c' := clone c in
  Character.id c' = ""%string
  /\ same_stats (Character.mk (Character.name c) (Character.hp c)
                   (Character.max_hp c) (Character.chakra c)
                   (Character.max_chakra c) (Character.attack c)
                   (Character.defense c) (Character.speed c) ""
                   (Character.skills c) (Character.status_effects c)
                   (Character.is_alive c) (Character.chakra_regen c)
                   (Character.is_player_controlled c) (Character.current_hp c))
       c'
  /\ Character.chakra c' = Character.chakra c
  /\ Character.status_effects c' = Character.status_effects c
  /\ Character.is_alive c' = Character.is_alive c
  /\ Character.current_hp c' = Character.hp c'
  /\ (0 < Character.hp c <= Character.max_hp c ->
      Character.hp c' = Character.hp c)
  /\ (Character.hp c <= 0 -> Character.hp c' = Character.max_hp c).
Proof.
  destruct c as [n hp mhp ch mch atk def spd i sk se al rg pc cur].
  cbn zeta. unfold clone, Character.post_init, same_stats. cbn.
  destruct (0 <? hp) eqn:Hpos; cbn;
    [apply Z.ltb_lt in Hpos | apply Z.ltb_ge in Hpos].
  - destruct (mhp <? hp) eqn:Hover; cbn;
      [apply Z.ltb_lt in Hover | apply Z.ltb_ge in Hover];
      repeat split; lia.
  - rewrite Z.ltb_irrefl. cbn. repeat split; lia.
Qed.

Lemma clone_copies_all_but_id_and_resets_hp_witness :
  Character.hp (clone (defeated character2)) = 100
  /\ Character.is_alive (clone (defeated character2)) = false
  /\ Character.hp (clone character2) = 100.
Proof.
  destruct (clone_copies_all_but_id_and_resets_hp (defeated character2))
    as (_ & _ & _ & _ & Halive & _ & _ & Hreset).
  destruct (clone_copies_all_but_id_and_resets_hp character2)
    as (_ & _ & _ & _ & _ & _ & Hkeep & _).
  split; [apply Hreset; cbn; lia |].
  split; [exact Halive | apply Hkeep; cbn; lia].
Defined.

(** ** What the mutators return *)

(** X3. On a living character [take_damage] returns exactly what
    [current_hp] lost and [heal] exactly what it gained; for a
    non-negative amount and [current_hp] within [0, max_hp] the returned
    value lies between 0 and the amount asked for. *)
Theorem mutators_return_the_change (amount : Z) (c : Character.t) :
  Character.is_alive c = true ->
  let damaged := Character.take_damage amount c in
  let healed := Character.heal amount c in
  Character.current_hp (fst damaged) = Character.current_hp c - snd damaged
  /\ Character.current_hp (fst healed) = Character.current_hp c + snd healed
  /\ (0 <= amount -> current_hp_bounds c ->
      0 <= snd damaged <= amount /\ 0 <= snd healed <= amount).
Proof.
  intros Ha. cbn zeta.
  destruct (take_damage_alive amount c Ha) as (Hhp & Hcur & _ & Hret & _).
  destruct (heal_alive amount c Ha) as (Hhp' & Hcur' & _).
  assert (Hheal : snd (Character.heal amount c)
                  = Z.min (Character.max_hp c) (Character.current_hp c + amount)
                    - Character.current_hp c).
  { unfold Character.heal. rewrite Ha. reflexivity. }
  unfold current_hp_bounds. rewrite Hcur, Hhp, Hret, Hcur', Hhp', Hheal. lia.
Qed.

Lemma mutators_return_the_change_witness :
  0 <= snd (Character.take_damage 130 character2) <= 130
  /\ 0 <= snd (Character.heal 130 character2) <= 130.
Proof.
  destruct (mutators_return_the_change 130 character2 eq_refl)
    as (_ & _ & Hrange).
  apply Hrange; [lia |]. unfold current_hp_bounds. cbn. lia.
Defined.

(** ** Chase states *)

(** X4. [NONE] is never added to the set of chase states; any other
    state is present after it is added and absent after it is removed;
    adding and then removing a state that was absent gives back the
    set; adding or removing one state never changes the membership of
    another; clearing empties the set. *)
Theorem chase_state_set_laws (state : ChaseState) (states : ChaseStates) :
  is_affected_by_chase_state NONE (add_chase_state state states)
  = is_affected_by_chase_state NONE states
  /\ (state <> NONE ->
      is_affected_by_chase_state state (add_chase_state state states) = true)
  /\ is_affected_by_chase_state state (remove_chase_state state states) = false
  /\ (is_affected_by_chase_state state states = false ->
      forall s, remove_chase_state state (add_chase_state state states) s
                = states s)
  /\ (forall other, other <> state ->
        is_affected_by_chase_state other (add_chase_state state states)
        = is_affected_by_chase_state other states
        /\ is_affected_by_chase_state other (remove_chase_state state states)
           = is_affected_by_chase_state other states)
  /\ is_affected_by_chase_state state (clear_chase_states states) = false.
Proof.
  unfold is_affected_by_chase_state, add_chase_state, remove_chase_state,
    clear_chase_states.
  split; [| split; [| split; [| split; [| split]]]].
  - destruct state; cbn; reflexivity.
  - intros Hne. destruct state; cbn; congruence.
  - destruct (states state) eqn:E; [| exact E]. destruct state; reflexivity.
  - intros Habs s. destruct state; cbn; rewrite ?Habs; cbn; try reflexivity;
      destruct s; cbn; congruence.
  - intros other Hne. split.
    + destruct state, other; cbn; congruence.
    + destruct (states state); [| reflexivity].
      destruct state, other; cbn; congruence.
  - reflexivity.
Qed.

Lemma chase_state_set_laws_witness :
  is_affected_by_chase_state KNOCKDOWN
    (add_chase_state KNOCKDOWN (clear_chase_states (fun _ => true))) = true.
Proof.
  apply (chase_state_set_laws KNOCKDOWN (clear_chase_states (fun _ => true))).
  discriminate.
Defined.

(** ** The cost of a skill *)

(** X5. [Skill.__post_init__] never changes what a cast will charge:
    the cost that [_execute_skill] computes is the same before and
    after it.  It copies [cost] into [chakra_cost] when only [cost] was
    given, leaves every other skill as it is, and doing it twice is
    doing it once. *)
Theorem skill_post_init_keeps_the_charge (s : Skill.t) :
  let s' := Skill.post_init s in
  Skill.cost s' = Skill.cost s
  /\ skill_cost s' = skill_cost s
  /\ (0 < Skill.cost s -> Skill.chakra_cost s = 0 ->
      Skill.chakra_cost s' = Skill.cost s)
  /\ (Skill.cost s <= 0 \/ Skill.chakra_cost s <> 0 -> s' = s)
  /\ Skill.post_init s' = s'.
Proof.
  destruct s as [n d c cc es]. cbn zeta. unfold Skill.post_init, skill_cost. cbn.
  destruct (0 <? c) eqn:Hc; [apply Z.ltb_lt in Hc | apply Z.ltb_ge in Hc];
    destruct (cc =? 0) eqn:Hcc; [apply Z.eqb_eq in Hcc | apply Z.eqb_neq in Hcc
                                | apply Z.eqb_eq in Hcc | apply Z.eqb_neq in Hcc];
    cbn.
  - assert (E1 : (0 <? c) = true) by (apply Z.ltb_lt; lia).
    assert (E2 : (c =? 0) = false) by (apply Z.eqb_neq; lia).
    rewrite E1, E2. cbn. repeat split; try reflexivity; lia.
  - assert (E1 : (0 <? c) = true) by (apply Z.ltb_lt; lia).
    assert (E2 : (cc =? 0) = false) by (apply Z.eqb_neq; lia).
    rewrite E1, E2. cbn. repeat split; try reflexivity; lia.
  - assert (E1 : (0 <? c) = false) by (apply Z.ltb_ge; lia).
    rewrite E1. cbn. repeat split; try reflexivity; lia.
  - assert (E1 : (0 <? c) = false) by (apply Z.ltb_ge; lia).
    rewrite E1. cbn. repeat split; try reflexivity; lia.
Qed.

Lemma skill_post_init_keeps_the_charge_witness :
  Skill.chakra_cost test_skill = 20.
Proof.
  apply (skill_post_init_keeps_the_charge
           (Skill.mk "测试技能" "用于测试的技能" 20 0 [DamageEffect 20 50]));
    cbn; lia.
Defined.

(** ** Active status effects *)

(** X6. [reduce_duration] leaves an effect with no turns remaining
    untouched and answers false for it, although [is_expired] holds of
    it.  On an effect with turns remaining it subtracts the turns and
    answers whether the effect is now expired.  Once it has answered
    true, every later call answers false and changes nothing. *)
Theorem reduce_duration_reports_expiry_once (turns : Z)
  (e : ActiveStatusEffect.t) :
  let e' := fst (ActiveStatusEffect.reduce_duration turns e) in
  let expired := snd (ActiveStatusEffect.reduce_duration turns e) in
  (ActiveStatusEffect.remaining_turns e <= 0 ->
   e' = e /\ expired = false /\ ActiveStatusEffect.is_expired e = true)
  /\ (0 < ActiveStatusEffect.remaining_turns e ->
      ActiveStatusEffect.remaining_turns e'
      = ActiveStatusEffect.remaining_turns e - turns
      /\ expired = ActiveStatusEffect.is_expired e')
  /\ (expired = true ->
      ActiveStatusEffect.is_expired e' = true
      /\ forall t, ActiveStatusEffect.reduce_duration t e' = (e', false)).
Proof.
  cbn zeta. unfold ActiveStatusEffect.reduce_duration, ActiveStatusEffect.is_expired.
  destruct (ActiveStatusEffect.remaining_turns e <=? 0) eqn:E;
    [apply Z.leb_le in E | apply Z.leb_gt in E]; cbn [fst snd].
  - split; [| split; [lia | discriminate]].
    intros _. split; [reflexivity | split; reflexivity].
  - split; [lia | split; [now split |]].
    intros Hexp. split; [exact Hexp |]. intros t. now rewrite Hexp.
Qed.

Lemma reduce_duration_reports_expiry_once_witness :
  ActiveStatusEffect.remaining_turns
    (fst (ActiveStatusEffect.reduce_duration 1 active_effect)) = 3 - 1.
Proof.
  apply (reduce_duration_reports_expiry_once 1 active_effect). cbn. lia.
Defined.

(** ** The cursor of a battle session *)

Lemma getitem_in_range {A : Type} (l : list A) (i : Z) :
  0 <= i < Z.of_nat (List.length l) ->
  exists x, getitem l i = Some x /\ nth_error l (Z.to_nat i) = Some x.
Proof.
  intros Hi. unfold getitem.
  assert (E : (0 <=? i) = true) by (apply Z.leb_le; lia). rewrite E.
  destruct (nth_error l (Z.to_nat i)) as [x |] eqn:En; [now exists x |].
  apply nth_error_None in En. lia.
Qed.

(** X7. From any cursor position at or after -1, the actor that
    [get_next_actor_id] announces is the one [get_current_actor_id]
    returns once [advance_actor] has run, and [advance_actor] answers
    true exactly when there is such an actor. *)
Theorem next_actor_is_current_after_advance (s : BattleSession.t) :
  -1 <= BattleSession.current_actor_index s ->
  let s' := fst (BattleSession.advance_actor s) in
  BattleSession.get_next_actor_id s = Some (BattleSession.get_current_actor_id s')
  /\ (snd (BattleSession.advance_actor s) = true <->
      exists id, BattleSession.get_current_actor_id s' = Some id)
  /\ BattleSession.turn_order s' = BattleSession.turn_order s.
Proof.
  intros Hidx. cbn zeta.
  unfold BattleSession.get_next_actor_id, BattleSession.get_current_actor_id,
    BattleSession.advance_actor. cbn.
  assert (E : (0 <=? BattleSession.current_actor_index s + 1) = true)
    by (apply Z.leb_le; lia).
  rewrite E. cbn [andb].
  destruct (BattleSession.current_actor_index s + 1
            <? Z.of_nat (List.length (BattleSession.turn_order s))) eqn:Hlt.
  - apply Z.ltb_lt in Hlt.
    destruct (getitem_in_range (BattleSession.turn_order s)
                (BattleSession.current_actor_index s + 1)) as (x & -> & _);
      [lia |].
    split; [reflexivity | split; [| reflexivity]].
    split; [now exists x | reflexivity].
  - split; [reflexivity | split; [| reflexivity]].
    split; [discriminate | intros [id Hid]; discriminate].
Qed.

Lemma next_actor_is_current_after_advance_witness :
  BattleSession.get_next_actor_id test_session
  = Some (BattleSession.get_current_actor_id
            (fst (BattleSession.advance_actor test_session))).
Proof.
  apply (next_actor_is_current_after_advance test_session). cbn. lia.
Defined.

(** ** The winner *)

(** X8. [get_winning_team] answers nothing exactly while the battle is
    not over.  It names team A exactly when team A has a living member
    and team B has none, and team B exactly when team A has no living
    member.  Whenever the battle view names a winner, the controller
    names the same one. *)
Theorem named_winner_matches_the_survivors (w : World) :
  let a_alive :=
    any (alive w) (BattleTeam.characters (BattleState.team_a (battle_state w))) in
  let b_alive :=
    any (alive w) (BattleTeam.characters (BattleState.team_b (battle_state w))) in
  (get_winning_team w = None <-> is_battle_over w = false)
  /\ (get_winning_team w = Some TEAM_A <-> a_alive = true /\ b_alive = false)
  /\ (get_winning_team w = Some TEAM_B <-> a_alive = false)
  /\ (forall s, battle_view_winner w = Some s -> get_winning_team w = Some s).
Proof.
  cbn zeta. unfold get_winning_team, battle_view_winner, is_battle_over.
  destruct (any (alive w) (BattleTeam.characters (BattleState.team_a _)));
    destruct (any (alive w) (BattleTeam.characters (BattleState.team_b _)));
    cbn; repeat split; intros; try congruence; try (destruct H; congruence).
Qed.

Lemma named_winner_matches_the_survivors_witness :
  get_winning_team team_a_fallen_world = Some TEAM_B.
Proof.
  destruct (named_winner_matches_the_survivors team_a_fallen_world)
    as (_ & _ & _ & Hview).
  apply Hview. reflexivity.
Defined.

(** ** What resolving an action touches *)

Lemma same_stats_refl (c : Character.t) : same_stats c c.
Proof. unfold same_stats. auto 12. Qed.

Lemma same_stats_trans (c1 c2 c3 : Character.t) :
  same_stats c1 c2 -> same_stats c2 c3 -> same_stats c1 c3.
Proof. unfold same_stats. intuition congruence. Qed.

Lemma mutated_refl (c : Character.t) : mutated c c.
Proof. split; [apply same_stats_refl | auto]. Qed.

Lemma mutated_trans (c1 c2 c3 : Character.t) :
  mutated c1 c2 -> mutated c2 c3 -> mutated c1 c3.
Proof.
  intros (Hs1 & He1 & Ha1) (Hs2 & He2 & Ha2).
  split; [eapply same_stats_trans; eauto | split; [congruence | auto]].
Qed.

Lemma take_damage_mutated (amount : Z) (c : Character.t) :
  mutated c (fst (Character.take_damage amount c)).
Proof.
  unfold Character.take_damage.
  destruct (Character.is_alive c) eqn:Ha; cbn -[Z.min];
    [| apply mutated_refl].
  destruct (_ <=? 0); unfold mutated, same_stats; cbn; intuition congruence.
Qed.

Lemma heal_mutated (amount : Z) (c : Character.t) :
  mutated c (fst (Character.heal amount c)).
Proof.
  unfold Character.heal.
  destruct (Character.is_alive c) eqn:Ha; cbn -[Z.min];
    [| apply mutated_refl].
  unfold mutated, same_stats; cbn; intuition congruence.
Qed.

Lemma same_but_chars_refl (w : World) : same_but_chars w w.
Proof. repeat split. Qed.

Lemma same_but_chars_trans (w1 w2 w3 : World) :
  same_but_chars w1 w2 -> same_but_chars w2 w3 -> same_but_chars w1 w3.
Proof. unfold same_but_chars. intuition congruence. Qed.

(** One skill effect touches the target only, and not its chakra. *)
Lemma apply_skill_effect_touch (caster target : cref) (w : World)
  (result : ActionResult.t) (effect : Effect) :
  let w' := fst (apply_skill_effect caster target (w, result) effect) in
  same_but_chars w w'
  /\ (forall r, r <> target -> chars w' r = chars w r)
  /\ mutated (chars w target) (chars w' target)
  /\ Character.chakra (chars w' target) = Character.chakra (chars w target).
Proof.
  cbn zeta. destruct effect as [b s | b s |]; cbn [apply_skill_effect].
  - pose proof (take_damage_mutated
                  (calculate_damage b s (Character.attack (chars w caster)))
                  (chars w target)) as Hm.
    pose proof (take_damage_chakra
                  (calculate_damage b s (Character.attack (chars w caster)))
                  (chars w target)) as Hc.
    destruct (Character.take_damage _ _) as [t' dmg]. cbn [fst] in *.
    split; [unfold same_but_chars; cbn; auto |]. cbn. rewrite upd_same.
    split; [intros r Hr; now apply upd_other | now split].
  - pose proof (heal_mutated
                  (calculate_healing b s (Character.attack (chars w caster)))
                  (chars w target)) as Hm.
    pose proof (heal_chakra
                  (calculate_healing b s (Character.attack (chars w caster)))
                  (chars w target)) as Hc.
    destruct (Character.heal _ _) as [t' amt]. cbn [fst] in *.
    split; [unfold same_but_chars; cbn; auto |]. cbn. rewrite upd_same.
    split; [intros r Hr; now apply upd_other | now split].
  - cbn. split; [unfold same_but_chars; cbn; auto |].
    split; [auto | split; [apply mutated_refl | reflexivity]].
Qed.

Lemma apply_skill_effects_touch (caster target : cref) (effects : list Effect) :
  forall w result,
    let w' := fst (fold_left (apply_skill_effect caster target) effects
                     (w, result)) in
    same_but_chars w w'
    /\ (forall r, r <> target -> chars w' r = chars w r)
    /\ mutated (chars w target) (chars w' target)
    /\ Character.chakra (chars w' target) = Character.chakra (chars w target).
Proof.
  induction effects as [| e effects IH]; intros w result; cbn zeta;
    cbn [fold_left].
  - cbn. split; [unfold same_but_chars; cbn; auto |].
    split; [auto | split; [apply mutated_refl | reflexivity]].
  - destruct (apply_skill_effect_touch caster target w result e)
      as (Hw & Ho & Hm & Hc).
    destruct (apply_skill_effect caster target (w, result) e) as [w1 r1].
    cbn [fst] in *.
    destruct (IH w1 r1) as (Hw' & Ho' & Hm' & Hc'). cbn zeta in *.
    split; [eapply same_but_chars_trans; eauto |].
    split; [intros r Hr; now rewrite Ho', Ho |].
    split; [eapply mutated_trans; eauto | congruence].
Qed.

Lemma set_chakra_mutated (v : Z) (c : Character.t) :
  mutated c (Character.set_chakra v c).
Proof. unfold mutated, same_stats; cbn; intuition congruence. Qed.

(** [_execute_attack] touches the target only. *)
Lemma execute_attack_touch (action : Action.t) (result : ActionResult.t)
  (w : World) :
  let w' := fst (execute_attack action result w) in
  same_but_chars w w'
  /\ (forall r, Action.target action <> Some r -> chars w' r = chars w r)
  /\ (forall r, mutated (chars w r) (chars w' r)).
Proof.
  cbn zeta. unfold execute_attack.
  destruct (Action.target action) as [target |];
    [| cbn; split; [unfold same_but_chars; cbn; auto | split; auto using mutated_refl]].
  destruct (alive w target); cbn [negb];
    [| cbn; split; [unfold same_but_chars; cbn; auto | split; auto using mutated_refl]].
  pose proof (take_damage_mutated
                (Z.max 1 (Character.attack (chars w (Action.character action))
                          - Character.defense (chars w target) / 2))
                (chars w target)) as Hm.
  destruct (Character.take_damage _ (chars w target)) as [t' dmg].
  cbn [fst] in *. split; [unfold same_but_chars; cbn; auto |]. cbn. split.
  - intros r Hr. apply upd_other. congruence.
  - intros r. unfold upd. destruct (Nat.eqb_spec r target) as [-> |];
      [exact Hm | apply mutated_refl].
Qed.

(** [_execute_skill] touches the target and the caster's chakra. *)
Lemma execute_skill_touch (action : Action.t) (result : ActionResult.t)
  (w : World) :
  let caster := Action.character action in
  let w' := fst (execute_skill action result w) in
  same_but_chars w w'
  /\ (forall r, r <> caster -> Action.target action <> Some r ->
                chars w' r = chars w r)
  /\ (Action.target action <> Some caster ->
      chars w' caster
      = Character.set_chakra (Character.chakra (chars w' caster)) (chars w caster))
  /\ (forall r, mutated (chars w r) (chars w' r)).
Proof.
  cbn zeta. unfold execute_skill.
  assert (Hid : forall c, c = Character.set_chakra (Character.chakra c) c)
    by (intros c; now destruct c).
  destruct (Action.skill action) as [skill |];
    [| cbn; split; [unfold same_but_chars; cbn; auto
                   | split; [auto | split; auto using mutated_refl]]].
  destruct (Action.target action) as [target |];
    [| cbn; split; [unfold same_but_chars; cbn; auto
                   | split; [auto | split; auto using mutated_refl]]].
  destruct (alive w target); cbn [negb];
    [| cbn; split; [unfold same_but_chars; cbn; auto
                   | split; [auto | split; auto using mutated_refl]]].
  set (caster := Action.character action).
  set (w1 := pay_cost caster (skill_cost skill) w).
  assert (Hpay : same_but_chars w w1
                 /\ (forall r, r <> caster -> chars w1 r = chars w r)
                 /\ chars w1 caster
                    = Character.set_chakra (Character.chakra (chars w1 caster))
                        (chars w caster)).
  { subst w1. unfold pay_cost. destruct (0 <? skill_cost skill).
    - split; [unfold same_but_chars; cbn; auto |]. cbn. rewrite upd_same.
      split; [intros r Hr; now apply upd_other | reflexivity].
    - split; [unfold same_but_chars; cbn; auto | split; auto]. }
  destruct Hpay as (Hw1 & Ho1 & Hc1).
  destruct (apply_skill_effects_touch caster target (Skill.effects skill)
              w1 result) as (Hw2 & Ho2 & Hm2 & _).
  destruct (fold_left _ _ _) as [w2 r2]. cbn [fst] in *.
  split; [eapply same_but_chars_trans; eauto |].
  split; [| split].
  - intros r Hr Ht. rewrite Ho2 by congruence. now apply Ho1.
  - intros Ht. rewrite Ho2 by congruence. exact Hc1.
  - intros r.
    assert (Hm1 : mutated (chars w r) (chars w1 r)).
    { destruct (Nat.eq_dec r caster) as [-> | Hr].
      - rewrite Hc1. apply set_chakra_mutated.
      - rewrite (Ho1 r Hr). apply mutated_refl. }
    eapply mutated_trans; [exact Hm1 |].
    destruct (Nat.eq_dec r target) as [-> | Hr];
      [exact Hm2 | rewrite (Ho2 r Hr); apply mutated_refl].
Qed.

(** X9. Resolving an action leaves the effect objects, the battle
    state, the event log and the queue alone.  Among the characters it
    touches the target and the actor at most: every other character is
    the same object as before, and an actor who is not the target can
    differ in chakra only.  No character changes stats or effect list,
    none is brought back to life, and an ITEM, PASS or DEFEND action
    changes nothing at all. *)
Theorem resolve_touches_actor_and_target_only (action : Action.t) (w : World) :
  let actor := Action.character action in
  let w' := fst (resolve action w) in
  same_but_chars w w'
  /\ (forall r, r <> actor -> Action.target action <> Some r ->
                chars w' r = chars w r)
  /\ (Action.target action <> Some actor ->
      chars w' actor
      = Character.set_chakra (Character.chakra (chars w' actor)) (chars w actor))
  /\ (forall r, mutated (chars w r) (chars w' r))
  /\ (Action.action_type action = ITEM \/ Action.action_type action = PASS
      \/ Action.action_type action = DEFEND -> w' = w).
Proof.
  cbn zeta. unfold resolve.
  assert (Hid : forall c, c = Character.set_chakra (Character.chakra c) c)
    by (intros c; now destruct c).
  destruct (Action.action_type action) eqn:Hkind.
  - destruct (execute_attack_touch action (ActionResult.new action) w)
      as (Hw & Ho & Hm).
    split; [exact Hw | split; [| split; [| split]]]; auto.
    + intros Ht. rewrite Ho by exact Ht. apply Hid.
    + intros [H | [H | H]]; discriminate.
  - destruct (execute_skill_touch action (ActionResult.new action) w)
      as (Hw & Ho & Hc & Hm).
    split; [exact Hw | split; [| split; [| split]]]; auto.
    intros [H | [H | H]]; discriminate.
  - cbn. split; [unfold same_but_chars; cbn; auto |].
    split; [auto | split; [auto | split; auto using mutated_refl]].
  - cbn. split; [unfold same_but_chars; cbn; auto |].
    split; [auto | split; [auto | split; auto using mutated_refl]].
  - cbn. split; [unfold same_but_chars; cbn; auto |].
    split; [auto | split; [auto | split; auto using mutated_refl]].
Qed.

Lemma resolve_touches_actor_and_target_only_witness :
  chars (fst (resolve skill_action test_world)) 0
  = Character.set_chakra
      (Character.chakra (chars (fst (resolve skill_action test_world)) 0))
      (chars test_world 0).
Proof.
  apply (resolve_touches_actor_and_target_only skill_action test_world).
  cbn. discriminate.
Defined.

Lemma resolve_touch (action : Action.t) (w : World) :
  same_but_chars w (fst (resolve action w))
  /\ forall r, mutated (chars w r) (chars (fst (resolve action w)) r).
Proof.
  unfold resolve. destruct (Action.action_type action).
  - destruct (execute_attack_touch action (ActionResult.new action) w)
      as (Hw & _ & Hm). now split.
  - destruct (execute_skill_touch action (ActionResult.new action) w)
      as (Hw & _ & _ & Hm). now split.
  - cbn. split; [unfold same_but_chars; auto | auto using mutated_refl].
  - cbn. split; [unfold same_but_chars; auto | auto using mutated_refl].
  - cbn. split; [unfold same_but_chars; auto | auto using mutated_refl].
Qed.

(** ** What a run of the engine never does *)

Lemma engine_frame_refl (w : World) : engine_frame w w.
Proof.
  constructor; auto using same_stats_refl; try lia.
  intros e. now rewrite set_duration_same.
Qed.

Lemma engine_frame_trans (w1 w2 w3 : World) :
  engine_frame w1 w2 -> engine_frame w2 w3 -> engine_frame w1 w3.
Proof.
  intros [Ha1 Hb1 Hr1 Hs1 Hl1 He1] [Ha2 Hb2 Hr2 Hs2 Hl2 He2]. constructor.
  - congruence.
  - congruence.
  - lia.
  - intros r. eapply same_stats_trans; eauto.
  - auto.
  - intros e. specialize (He1 e). specialize (He2 e). revert He1 He2.
    generalize (effs w1 e), (effs w2 e), (effs w3 e).
    intros y1 y2 y3 -> ->. reflexivity.
Qed.

Lemma mutated_engine_frame (w w' : World) :
  same_but_chars w w' ->
  (forall r, mutated (chars w r) (chars w' r)) ->
  engine_frame w w'.
Proof.
  intros (He & Hb & _ & _) Hm. constructor; rewrite ?Hb; try reflexivity.
  - intros r. apply Hm.
  - intros r. unfold alive. apply Hm.
  - intros e. rewrite He. now rewrite set_duration_same.
Qed.

Lemma emit_engine_frame (ev : Event) (w : World) : engine_frame w (emit ev w).
Proof.
  constructor; cbn; auto using same_stats_refl; try lia.
  intros e. now rewrite set_duration_same.
Qed.

Lemma round_frame_engine (w w' : World) :
  round_frame w w' ->
  engine_frame w w' /\ (forall r, alive w' r = alive w r).
Proof.
  intros [Hc He Hb Hq].
  assert (Hs : forall r, same_stats (chars w r) (chars w' r)
                         /\ alive w' r = alive w r).
  { intros r. unfold alive, same_stats. rewrite (Hc r). cbn. auto 15. }
  split; [| intros r; apply Hs].
  constructor; rewrite ?Hb; try reflexivity; auto.
  - intros r. apply Hs.
  - intros r. now rewrite (proj2 (Hs r)).
Qed.

(** [is_battle_over] reads the teams and the alive flags only. *)
Lemma is_battle_over_congr (w w' : World) :
  BattleState.team_a (battle_state w') = BattleState.team_a (battle_state w) ->
  BattleState.team_b (battle_state w') = BattleState.team_b (battle_state w) ->
  (forall r, alive w' r = alive w r) ->
  is_battle_over w' = is_battle_over w.
Proof.
  intros Ha Hb Hal. unfold is_battle_over, any. rewrite Ha, Hb.
  assert (E : forall l, existsb (alive w') l = existsb (alive w) l).
  { intros l. induction l as [| x l IH]; cbn; [reflexivity |].
    now rewrite Hal, IH. }
  now rewrite !E.
Qed.

(** Once the battle is over, no run of the engine makes it go on. *)
Lemma engine_frame_battle_over (w w' : World) :
  engine_frame w w' -> is_battle_over w = true -> is_battle_over w' = true.
Proof.
  intros Hf. unfold is_battle_over, any.
  rewrite (engine_team_a _ _ Hf), (engine_team_b _ _ Hf).
  assert (E : forall l, existsb (alive w) l = false ->
                        existsb (alive w') l = false).
  { intros l. induction l as [| x l IH]; cbn; [reflexivity |].
    intros Hx. apply orb_false_iff in Hx as [Hx Hl].
    rewrite (IH Hl), orb_false_r.
    destruct (alive w' x) eqn:Hx'; [| reflexivity].
    apply (engine_alive _ _ Hf) in Hx'. congruence. }
  rewrite !negb_true_iff, !andb_false_iff.
  intros [Ha | Hb]; [left | right]; now apply E.
Qed.

Section EngineFacts.
Context {G : Type} `{RandomSource G}.

Lemma calculate_turn_order_frame (g : G) (w : World) :
  let w' := fst (calculate_turn_order g w) in
  engine_frame w w' /\ (forall r, alive w' r = alive w r).
Proof.
  destruct (calculate_turn_order_spec g w) as (Hc & He & Hb & _).
  cbn zeta in *. split.
  - constructor; rewrite ?Hb, ?Hc, ?He; cbn; auto using same_stats_refl;
      try lia.
    + intros r. unfold alive. now rewrite Hc.
    + intros e. now rewrite set_duration_same.
  - intros r. unfold alive. now rewrite Hc.
Qed.

(** [_prepare_new_round] in terms of its three steps. *)
Lemma prepare_new_round_steps (g : G) (w : World) :
  exists w2,
    prepare_new_round g w
    = Some (calculate_turn_order g (emit on_round_start w2))
    /\ round_frame
         (set_battle_state
            (BattleState.mk (BattleState.team_a (battle_state w))
               (BattleState.team_b (battle_state w))
               (BattleState.current_round (battle_state w) + 1)
               (BattleState.turn_order (battle_state w))
               (BattleState.current_character_index (battle_state w))) w)
         w2.
Proof.
  unfold prepare_new_round. cbn [fold_left].
  set (w1 := set_battle_state _ w).
  rewrite <- fold_left_app.
  destruct (round_start_characters_spec
              (BattleTeam.characters (BattleState.team_a (battle_state w1))
               ++ BattleTeam.characters (BattleState.team_b (battle_state w1)))
              w1) as (w2 & -> & Hf & _).
  exists w2. split; [reflexivity | exact Hf].
Qed.

Lemma prepare_new_round_frame (g : G) (w : World) :
  exists w' g',
    prepare_new_round g w = Some (w', g')
    /\ engine_frame w w'
    /\ (forall r, alive w' r = alive w r)
    /\ BattleState.current_round (battle_state w')
       = BattleState.current_round (battle_state w) + 1.
Proof.
  destruct (prepare_new_round_steps g w) as (w2 & Hprep & Hf).
  set (w1 := set_battle_state _ w) in Hf.
  destruct (round_frame_engine w1 w2 Hf) as [He Hal].
  destruct (calculate_turn_order_frame g (emit on_round_start w2)) as [He3 Hal3].
  destruct (calculate_turn_order_spec g (emit on_round_start w2))
    as (_ & _ & Hb & _).
  cbn zeta in *.
  destruct (calculate_turn_order g (emit on_round_start w2)) as [w' g'].
  cbn [fst] in *. exists w', g'. split; [exact Hprep |].
  assert (H01 : engine_frame w w1).
  { constructor; cbn; auto using same_stats_refl; try lia.
    intros e. now rewrite set_duration_same. }
  split; [| split].
  - eapply engine_frame_trans; [exact H01 |].
    eapply engine_frame_trans; [exact He |].
    eapply engine_frame_trans; [apply emit_engine_frame | exact He3].
  - intros r. rewrite Hal3. cbn. apply Hal.
  - rewrite Hb. cbn. now rewrite (round_battle_state _ _ Hf).
Qed.
Lemma not_over_has_living (w : World) :
  is_battle_over w = false ->
  (exists a, In a (BattleTeam.characters (BattleState.team_a (battle_state w)))
             /\ alive w a = true)
  /\ (exists b, In b (BattleTeam.characters (BattleState.team_b (battle_state w)))
                /\ alive w b = true).
Proof.
  unfold is_battle_over, any. intros Hno.
  apply negb_false_iff, andb_true_iff in Hno as [Ha Hb].
  apply existsb_exists in Ha, Hb. auto.
Qed.

Lemma sorted_head_is_greatest {A : Type} (key : A -> Z) (first : A)
  (rest : list A) :
  StronglySorted (by_key_desc key) (first :: rest) ->
  forall c, In c (first :: rest) -> key c <= key first.
Proof.
  intros Hs c [<- | Hc]; [lia |].
  apply StronglySorted_inv in Hs as [_ Hall].
  rewrite Forall_forall in Hall. apply (Hall c Hc).
Qed.

(** With somebody alive, [_calculate_turn_order] puts a fastest living
    character under the cursor and announces its turn. *)
Lemma calculate_turn_order_first (g : G) (w : World) :
  (exists c, In c (roster w) /\ alive w c = true) ->
  let w' := fst (calculate_turn_order g w) in
  exists first,
    get_current_character w' = Some first
    /\ In first (roster w) /\ alive w first = true
    /\ (forall c, In c (roster w) -> alive w c = true ->
                  Character.speed (chars w c) <= Character.speed (chars w first))
    /\ events w' = (events w ++ [on_turn_start first])%list.
Proof.
  intros (c0 & Hin0 & Hal0). cbn zeta. unfold calculate_turn_order.
  set (speed := fun c => Character.speed (chars w c)).
  pose proof (shuffle_perm g (collect_alive w)) as Hsh.
  destruct (shuffle g (collect_alive w)) as [shuffled g']. cbn [fst] in Hsh.
  pose proof (sort_desc_perm speed shuffled) as Hso.
  pose proof (sort_desc_sorted speed shuffled) as Hsorted.
  assert (Hperm : Permutation (sort_desc speed shuffled)
                    (filter (alive w) (roster w))).
  { rewrite Hso, Hsh. unfold roster. now rewrite collect_alive_filter. }
  destruct (sort_desc speed shuffled) as [| first rest].
  - exfalso. apply (Permutation_nil (l := filter (alive w) (roster w))) in Hperm.
    + assert (Hc : In c0 (filter (alive w) (roster w)))
        by (apply filter_In; auto).
      rewrite Hperm in Hc. contradiction.
  - exists first. cbn [fst].
    assert (Hfirst : In first (filter (alive w) (roster w))).
    { eapply Permutation_in; [exact Hperm | now left]. }
    apply filter_In in Hfirst as [Hroster Halive].
    split; [reflexivity | split; [exact Hroster | split; [exact Halive |]]].
    split; [| reflexivity].
    intros c Hc Hca. apply (sorted_head_is_greatest speed first rest Hsorted).
    eapply Permutation_in; [symmetry; exact Hperm |]. apply filter_In. auto.
Qed.

(** [next_turn] always returns; its flag says whether the battle was
    over, which it does not change. *)
Lemma next_turn_spec (g : G) (w : World) :
  exists w' g',
    next_turn g w = Some (w', g', is_battle_over w)
    /\ is_battle_over w' = is_battle_over w
    /\ engine_frame w w'.
Proof.
  unfold next_turn. destruct (is_battle_over w) eqn:Hover.
  - exists (emit on_battle_end w), g.
    split; [reflexivity | split; [exact Hover | apply emit_engine_frame]].
  - set (w1 := match get_current_character w with
               | Some c => emit (on_turn_end c) w
               | None => w
               end).
    assert (H1 : engine_frame w w1 /\ is_battle_over w1 = false).
    { subst w1. destruct (get_current_character w);
        (split; [apply emit_engine_frame || apply engine_frame_refl | exact Hover]). }
    destruct H1 as [Hf1 Ho1].
    set (w2 := set_battle_state _ w1).
    assert (Hf2 : engine_frame w1 w2).
    { constructor; cbn; auto using same_stats_refl; try lia.
      intros e. now rewrite set_duration_same. }
    assert (Ho2 : is_battle_over w2 = false) by exact Ho1.
    destruct (_ <=? _).
    + destruct (prepare_new_round_frame g w2) as (w3 & g3 & -> & Hf3 & Hal & _).
      exists w3, g3. split; [reflexivity |]. split.
      * rewrite <- Ho2. apply is_battle_over_congr;
          [apply (engine_team_a _ _ Hf3) | apply (engine_team_b _ _ Hf3) | exact Hal].
      * eapply engine_frame_trans; [exact Hf1 |].
        eapply engine_frame_trans; [exact Hf2 | exact Hf3].
    + destruct (get_current_character w2) as [next |].
      * exists (emit (on_turn_start next) w2), g.
        split; [reflexivity | split; [exact Ho2 |]].
        eapply engine_frame_trans; [exact Hf1 |].
        eapply engine_frame_trans; [exact Hf2 | apply emit_engine_frame].
      * exists w2, g. split; [reflexivity | split; [exact Ho2 |]].
        eapply engine_frame_trans; [exact Hf1 | exact Hf2].
Qed.

Lemma execute_one_spec (action : Action.t) (w : World) :
  let w' := fst (execute_one action w) in
  snd (execute_one action w) = is_battle_over w'
  /\ engine_frame w w'
  /\ action_queue w' = action_queue w.
Proof.
  cbn zeta. unfold execute_one.
  destruct (resolve_touch action w) as (Hw & Hm).
  destruct (resolve action w) as [w1 result]. cbn [fst] in *.
  assert (Hf : engine_frame w (emit (on_action_executed result) w1)).
  { eapply engine_frame_trans;
      [apply (mutated_engine_frame w w1 Hw Hm) | apply emit_engine_frame]. }
  destruct Hw as (_ & _ & _ & Hq).
  destruct (is_battle_over (emit (on_action_executed result) w1)) eqn:Hover;
    cbn [fst snd].
  - split; [exact (eq_sym Hover) | split; [| exact Hq]].
    eapply engine_frame_trans; [exact Hf | apply emit_engine_frame].
  - split; [exact (eq_sym Hover) | split; [exact Hf | exact Hq]].
Qed.

Lemma drain_queue_spec (queue : list Action.t) :
  forall (g : G) (w : World),
    is_battle_over w = false ->
    exists w' g' over,
      drain_queue queue g w = Some (w', g', over)
      /\ over = is_battle_over w'
      /\ engine_frame w w'.
Proof.
  induction queue as [| next rest IH]; intros g w Hno; cbn [drain_queue].
  - destruct (next_turn_spec g w) as (w' & g' & Hn & Ho & Hf).
    exists w', g', (is_battle_over w).
    split; [exact Hn | split; [now rewrite Ho | exact Hf]].
  - set (w0 := set_action_queue rest w).
    assert (Hf0 : engine_frame w w0).
    { constructor; cbn; auto using same_stats_refl; try lia.
      intros e. now rewrite set_duration_same. }
    destruct (execute_one_spec next w0) as (Hflag & Hf1 & _). cbn zeta in *.
    destruct (execute_one next w0) as [w1 over]. cbn [fst snd] in *.
    destruct over.
    + exists w1, g, true. split; [reflexivity | split; [exact Hflag |]].
      eapply engine_frame_trans; eauto.
    + destruct (IH g w1 (eq_sym Hflag)) as (w' & g' & over & Hd & Ho & Hf).
      exists w', g', over. split; [exact Hd | split; [exact Ho |]].
      eapply engine_frame_trans; [exact Hf0 |].
      eapply engine_frame_trans; eauto.
Qed.

Lemma execute_action_spec (action : Action.t) (g : G) (w : World) :
  exists w' g' over,
    execute_action action g w = Some (w', g', over)
    /\ over = is_battle_over w'
    /\ engine_frame w w'.
Proof.
  unfold execute_action.
  destruct (execute_one_spec action w) as (Hflag & Hf1 & _). cbn zeta in *.
  destruct (execute_one action w) as [w1 over]. cbn [fst snd] in *.
  destruct over.
  - exists w1, g, true. auto.
  - destruct (drain_queue_spec (action_queue w1) g w1 (eq_sym Hflag))
      as (w' & g' & over & Hd & Ho & Hf).
    exists w', g', over. split; [exact Hd | split; [exact Ho |]].
    eapply engine_frame_trans; eauto.
Qed.
End EngineFacts.

(** ** Executing an action and advancing the turn *)

(** X10. [execute_action] always returns, whatever is queued: no
    [list.remove] inside a round preparation fails.  The flag it
    returns is [is_battle_over] of the world it leaves, and when the
    battle was over before the call it is over after it. *)
Theorem execute_action_reports_the_outcome {G : Type} `{RandomSource G}
  (action : Action.t) (g : G) (w : World) :
  exists w' g' over,
    execute_action action g w = Some (w', g', over)
    /\ over = is_battle_over w'
    /\ (is_battle_over w = true -> over = true).
Proof.
  destruct (execute_action_spec action g w) as (w' & g' & over & He & Ho & Hf).
  exists w', g', over. split; [exact He | split; [exact Ho |]].
  intros Hover. rewrite Ho. now apply (engine_frame_battle_over w w').
Qed.

Lemma execute_action_reports_the_outcome_witness :
  exists w' g' over,
    execute_action attack_action 0%nat wiped_world = Some (w', g', over)
    /\ over = true.
Proof.
  destruct (execute_action_reports_the_outcome attack_action 0%nat wiped_world)
    as (w' & g' & over & He & _ & Hstay).
  exists w', g', over. split; [exact He | apply Hstay; reflexivity].
Defined.

(** X11. Whatever [execute_action] does, it leaves both teams as they
    were, does not lower the round counter, keeps every character's
    name, id, maxima, attack, defense, speed, skills, regeneration and
    control flag, never turns a defeated character into a living one,
    and changes effect objects in their duration only. *)
Theorem execute_action_stays_within_the_frame {G : Type} `{RandomSource G}
  (action : Action.t) (g : G) (w w' : World) (g' : G) (over : bool) :
  execute_action action g w = Some (w', g', over) ->
  engine_frame w w'.
Proof.
  intros He.
  destruct (execute_action_spec action g w) as (w1 & g1 & o1 & He1 & _ & Hf).
  rewrite He in He1. now injection He1 as -> _ _.
Qed.

Lemma execute_action_stays_within_the_frame_witness :
  exists w' g' over,
    execute_action attack_action 0%nat test_world = Some (w', g', over)
    /\ engine_frame test_world w'.
Proof.
  destruct (execute_action_spec attack_action 0%nat test_world)
    as (w' & g' & over & He & _).
  exists w', g', over. split; [exact He |].
  exact (execute_action_stays_within_the_frame attack_action 0%nat test_world
           w' g' over He).
Defined.

Lemma get_current_character_in_order (w : World) (c : cref) :
  get_current_character w = Some c ->
  In c (BattleState.turn_order (battle_state w)).
Proof.
  unfold get_current_character. destruct (_ || _); [discriminate |].
  apply nth_error_In.
Qed.

(** X12. While the battle is not over and the cursor is at -1 or
    later, [next_turn] returns false and leaves the cursor on a
    character of the turn order.  Short of the end of the order it
    moves the cursor by one and touches no character and no generator
    state; at the end it starts the next round with the cursor at 0. *)
Theorem next_turn_moves_the_cursor {G : Type} `{RandomSource G}
  (g : G) (w : World) :
  is_battle_over w = false ->
  -1 <= BattleState.current_character_index (battle_state w) ->
  let b := battle_state w in
  let len := Z.of_nat (List.length (BattleState.turn_order b)) in
  let i := BattleState.current_character_index b in
  exists w' g',
    next_turn g w = Some (w', g', false)
    /\ (i + 1 < len ->
        battle_state w'
        = BattleState.mk (BattleState.team_a b) (BattleState.team_b b)
            (BattleState.current_round b) (BattleState.turn_order b) (i + 1)
        /\ g' = g /\ chars w' = chars w /\ effs w' = effs w)
    /\ (len <= i + 1 ->
        BattleState.current_round (battle_state w')
        = BattleState.current_round b + 1
        /\ BattleState.current_character_index (battle_state w') = 0)
    /\ exists c, get_current_character w' = Some c
                 /\ In c (BattleState.turn_order (battle_state w')).
Proof.
  intros Hno Hidx. cbn zeta. unfold next_turn. rewrite Hno.
  set (w1 := match get_current_character w with
             | Some c => emit (on_turn_end c) w
             | None => w
             end).
  assert (H1 : battle_state w1 = battle_state w /\ chars w1 = chars w
               /\ effs w1 = effs w).
  { subst w1. now destruct (get_current_character w). }
  destruct H1 as (Hb1 & Hc1 & He1). clearbody w1.
  set (w2 := set_battle_state _ w1).
  assert (H2 : battle_state w2
               = BattleState.mk (BattleState.team_a (battle_state w))
                   (BattleState.team_b (battle_state w))
                   (BattleState.current_round (battle_state w))
                   (BattleState.turn_order (battle_state w))
                   (BattleState.current_character_index (battle_state w) + 1)
               /\ chars w2 = chars w /\ effs w2 = effs w).
  { subst w2. cbn. now rewrite Hb1. }
  destruct H2 as (Hb2 & Hc2 & He2). clearbody w2.
  rewrite Hb2. cbn [BattleState.turn_order BattleState.current_character_index].
  destruct (_ <=? _) eqn:Hend;
    [apply Z.leb_le in Hend | apply Z.leb_gt in Hend].
  - destruct (prepare_new_round_steps g w2) as (w3 & -> & Hf).
    set (w2' := set_battle_state _ w2) in Hf.
    assert (H2' : battle_state w2'
                  = BattleState.mk (BattleState.team_a (battle_state w))
                      (BattleState.team_b (battle_state w))
                      (BattleState.current_round (battle_state w) + 1)
                      (BattleState.turn_order (battle_state w))
                      (BattleState.current_character_index (battle_state w) + 1)
                  /\ chars w2' = chars w).
    { subst w2'. cbn. now rewrite Hb2. }
    destruct H2' as (Hb2' & Hc2'). clearbody w2'.
    destruct (round_frame_engine w2' w3 Hf) as [_ Hal].
    destruct (not_over_has_living w Hno) as [(a & Ha & Haa) _].
    assert (Hb3 : battle_state w3 = battle_state w2')
      by apply (round_battle_state _ _ Hf).
    destruct (calculate_turn_order_first g (emit on_round_start w3))
      as (first & Hcur & _).
    { exists a. split.
      - unfold roster. cbn. rewrite Hb3, Hb2'. cbn.
        apply in_or_app. now left.
      - change (alive w3 a = true). rewrite Hal.
        unfold alive in *. now rewrite Hc2'. }
    destruct (calculate_turn_order_spec g (emit on_round_start w3))
      as (_ & _ & Hbs & _).
    cbn zeta in *.
    destruct (calculate_turn_order g (emit on_round_start w3)) as [w' g'].
    cbn [fst] in *. exists w', g'. split; [reflexivity |].
    split; [lia |]. split.
    + intros _. rewrite Hbs. cbn. rewrite Hb3, Hb2'. cbn. auto.
    + exists first. split; [exact Hcur |].
      now apply get_current_character_in_order.
  - assert (Hcur : exists next, get_current_character w2 = Some next).
    { unfold get_current_character. rewrite Hb2. cbn.
      assert (E1 : (BattleState.current_character_index (battle_state w) + 1 <? 0)
                   = false) by (apply Z.ltb_ge; lia).
      assert (E2 : (Z.of_nat (List.length (BattleState.turn_order (battle_state w)))
                    <=? BattleState.current_character_index (battle_state w) + 1)
                   = false) by (apply Z.leb_gt; lia).
      rewrite E1, E2. cbn.
      destruct (nth_error _ _) as [next |] eqn:En; [now exists next |].
      apply nth_error_None in En. lia. }
    destruct Hcur as [next Hnext]. rewrite Hnext.
    exists (emit (on_turn_start next) w2), g. split; [reflexivity |].
    split; [| split; [lia |]].
    + intros _. cbn. rewrite Hb2, Hc2, He2. auto.
    + exists next. split; [exact Hnext |].
      apply (get_current_character_in_order w2 next Hnext).
Qed.

Lemma next_turn_moves_the_cursor_witness :
  exists w' g',
    next_turn 0%nat test_world = Some (w', g', false)
    /\ BattleState.current_character_index (battle_state w') = 0.
Proof.
  destruct (next_turn_moves_the_cursor 0%nat test_world)
    as (w' & g' & Hn & _ & Hwrap & _); [reflexivity | cbn; lia |].
  exists w', g'. split; [exact Hn | apply Hwrap; cbn; lia].
Defined.

(** X13. When somebody in either team is alive, a round preparation
    raises the round counter by one, leaves the cursor at 0 on a living
    character of greatest speed among the living, and ends its
    notifications with the round start followed by that character's
    turn start. *)
Theorem round_preparation_puts_a_fastest_first {G : Type} `{RandomSource G}
  (g : G) (w : World) :
  (exists c, In c (roster w) /\ alive w c = true) ->
  exists w' g' first,
    prepare_new_round g w = Some (w', g')
    /\ BattleState.current_round (battle_state w')
       = BattleState.current_round (battle_state w) + 1
    /\ BattleState.current_character_index (battle_state w') = 0
    /\ get_current_character w' = Some first
    /\ In first (roster w) /\ alive w' first = true
    /\ (forall c, In c (roster w) -> alive w' c = true ->
                  Character.speed (chars w' c)
                  <= Character.speed (chars w' first))
    /\ exists l, events w' = (l ++ [on_round_start; on_turn_start first])%list.
Proof.
  intros (c0 & Hin0 & Hal0).
  destruct (prepare_new_round_steps g w) as (w3 & Hprep & Hf).
  set (w1 := set_battle_state _ w) in Hf.
  assert (H1 : BattleState.team_a (battle_state w1)
               = BattleState.team_a (battle_state w)
               /\ BattleState.team_b (battle_state w1)
                  = BattleState.team_b (battle_state w)
               /\ BattleState.current_round (battle_state w1)
                  = BattleState.current_round (battle_state w) + 1
               /\ chars w1 = chars w) by (subst w1; cbn; auto).
  destruct H1 as (Hta & Htb & Hround & Hc1). clearbody w1.
  destruct (round_frame_engine w1 w3 Hf) as [_ Hal].
  assert (Hb3 : battle_state w3 = battle_state w1)
    by apply (round_battle_state _ _ Hf).
  assert (Hroster : roster (emit on_round_start w3) = roster w).
  { unfold roster. cbn. now rewrite Hb3, Hta, Htb. }
  destruct (calculate_turn_order_first g (emit on_round_start w3))
    as (first & Hcur & Hin & Halive & Hmax & Hev).
  { exists c0. rewrite Hroster. split; [exact Hin0 |].
    change (alive w3 c0 = true). rewrite Hal. unfold alive in *.
    now rewrite Hc1. }
  destruct (calculate_turn_order_spec g (emit on_round_start w3))
    as (Hchars & _ & Hbs & _).
  cbn zeta in *.
  destruct (calculate_turn_order g (emit on_round_start w3)) as [w' g'].
  cbn [fst] in *. exists w', g', first. split; [exact Hprep |].
  rewrite Hroster in *.
  assert (Halive' : alive w' = alive (emit on_round_start w3))
    by (unfold alive; now rewrite Hchars).
  rewrite Hbs, Halive', Hchars. cbn [BattleState.current_round
    BattleState.current_character_index battle_state emit]. rewrite Hb3.
  split; [exact Hround | split; [reflexivity |]].
  split; [exact Hcur |].
  split; [exact Hin | split; [exact Halive | split; [exact Hmax |]]].
  exists (events w3). rewrite Hev. cbn. now rewrite <- app_assoc.
Qed.

Lemma round_preparation_puts_a_fastest_first_witness :
  exists w' g',
    prepare_new_round 0%nat test_world = Some (w', g')
    /\ get_current_character w' = Some 0%nat.
Proof.
  destruct (round_preparation_puts_a_fastest_first 0%nat test_world)
    as (w' & g' & first & Hprep & _ & _ & Hcur & _).
  - exists 0%nat. split; [now left | reflexivity].
  - exists w', g'. split; [exact Hprep |].
    rewrite Hcur. vm_compute in Hprep. injection Hprep as <- _.
    vm_compute in Hcur. now injection Hcur as <-.
Defined.

(** ** Chakra regeneration at round start *)

Lemma pass_frame_chakra (character : cref) (w w' : World) (r : cref) :
  pass_frame character w w' ->
  Character.chakra (chars w' r) = Character.chakra (chars w r).
Proof.
  intros Hf. destruct (Nat.eq_dec r character) as [-> | Hr].
  - rewrite (frame_character _ _ _ Hf). reflexivity.
  - now rewrite (frame_others _ _ _ Hf r Hr).
Qed.

Lemma round_start_character_chakra (w w' : World) (character : cref) :
  round_start_character (Some w) character = Some w' ->
  Character.chakra (chars w' character)
  = (if alive w character then regenerated (chars w character)
     else Character.chakra (chars w character))
  /\ forall r, r <> character ->
               Character.chakra (chars w' r) = Character.chakra (chars w r).
Proof.
  unfold round_start_character.
  destruct (alive w character); cbn [negb].
  - intros Hpass. apply process_turn_based_effects_frame in Hpass.
    split.
    + rewrite (pass_frame_chakra _ _ _ character Hpass). cbn.
      now rewrite upd_same.
    + intros r Hr. rewrite (pass_frame_chakra _ _ _ r Hpass). cbn.
      now rewrite upd_other.
  - intros [= <-]. auto.
Qed.

Lemma round_start_characters_chakra (l : list cref) :
  NoDup l ->
  forall w w',
    fold_left round_start_character l (Some w) = Some w' ->
    forall r,
      (In r l -> alive w r = true ->
       Character.chakra (chars w' r) = regenerated (chars w r))
      /\ (~ In r l \/ alive w r = false ->
          Character.chakra (chars w' r) = Character.chakra (chars w r)).
Proof.
  induction 1 as [| c l Hc Hnd IH]; intros w w' Hfold r; cbn [fold_left] in Hfold.
  - injection Hfold as <-. split; [intros [] | auto].
  - destruct (round_start_character_spec w c) as (w1 & Hstep & Hf & _).
    rewrite Hstep in Hfold.
    destruct (round_start_character_chakra w w1 c Hstep) as [Hself Hothers].
    destruct (round_frame_facts w w1 r Hf) as (Hal & _ & Hregen & _ & Hmax & _).
    destruct (IH w1 w' Hfold r) as [Hin Hout].
    destruct (Nat.eq_dec r c) as [-> | Hr].
    + split.
      * intros _ Ha. rewrite Hout by (now left). rewrite Hself. now rewrite Ha.
      * intros [Hn | Hd]; [exfalso; apply Hn; now left |].
        rewrite Hout by (now left). rewrite Hself. now rewrite Hd.
    + assert (Hsame : regenerated (chars w1 r) = regenerated (chars w r)).
      { unfold regenerated. now rewrite Hregen, Hmax, (Hothers r Hr). }
      split.
      * intros [-> | Hl] Ha; [congruence |].
        rewrite Hin; [exact Hsame | exact Hl | now rewrite Hal].
      * intros Hno. rewrite Hout; [now apply Hothers |].
        destruct Hno as [Hn | Hd]; [left | right; now rewrite Hal].
        intros Hl. apply Hn. now right.
Qed.

Lemma prepare_new_round_fold {G : Type} `{RandomSource G} (g : G) (w : World) :
  prepare_new_round g w
  = (w2 <- fold_left round_start_character (roster w)
             (Some (set_battle_state
                      (BattleState.mk (BattleState.team_a (battle_state w))
                         (BattleState.team_b (battle_state w))
                         (BattleState.current_round (battle_state w) + 1)
                         (BattleState.turn_order (battle_state w))
                         (BattleState.current_character_index (battle_state w)))
                      w)) ;;
     Some (calculate_turn_order g (emit on_round_start w2))).
Proof.
  unfold prepare_new_round, roster. cbn [fold_left].
  now rewrite <- fold_left_app.
Qed.

(** X14. With no character listed twice in the rosters, a round
    preparation gives every living character of either team exactly one
    regeneration, min(chakra + chakra_regen, max_chakra), and leaves the
    chakra of defeated characters and of characters outside the teams
    as it was. *)
Theorem round_preparation_regenerates_once {G : Type} `{RandomSource G}
  (g : G) (w : World) :
  NoDup (roster w) ->
  exists w' g',
    prepare_new_round g w = Some (w', g')
    /\ forall r,
         (In r (roster w) -> alive w r = true ->
          Character.chakra (chars w' r)
          = Z.min (Character.chakra (chars w r)
                   + Character.chakra_regen (chars w r))
                  (Character.max_chakra (chars w r)))
         /\ (~ In r (roster w) \/ alive w r = false ->
             Character.chakra (chars w' r) = Character.chakra (chars w r)).
Proof.
  intros Hnd. rewrite prepare_new_round_fold.
  set (w1 := set_battle_state _ w).
  destruct (round_start_characters_spec (roster w) w1) as (w2 & Hfold & _).
  rewrite Hfold.
  destruct (calculate_turn_order_spec g (emit on_round_start w2)) as (Hc & _).
  cbn zeta in Hc.
  destruct (calculate_turn_order g (emit on_round_start w2)) as [w' g'].
  cbn [fst] in Hc. exists w', g'. split; [reflexivity |].
  intros r. rewrite Hc. cbn [chars emit].
  exact (round_start_characters_chakra (roster w) Hnd w1 w2 Hfold r).
Qed.

Lemma round_preparation_regenerates_once_witness :
  exists w' g',
    prepare_new_round 0%nat low_chakra_world = Some (w', g')
    /\ Character.chakra (chars w' 0) = Z.min (10 + 10) 100.
Proof.
  destruct (round_preparation_regenerates_once 0%nat low_chakra_world)
    as (w' & g' & Hprep & Hch).
  - cbn. repeat constructor; cbn; intuition discriminate.
  - exists w', g'. split; [exact Hprep |].
    apply (Hch 0%nat); [now left | reflexivity].
Defined.

(** ** Stun and freeze across the round-start pass *)

(** The pass on a list without repeated effect objects: what is kept. *)
Lemma process_turn_based_effects_kept (character : cref) (w : World) :
  NoDup (Character.status_effects (chars w character)) ->
  exists w',
    process_turn_based_effects character w = Some w'
    /\ (forall e, In e (Character.status_effects (chars w character)) ->
                  effs w' e = ticked (effs w e))
    /\ Character.status_effects (chars w' character)
       = filter (fun e => negb (StatusEffect.duration (ticked (effs w e)) =? 0))
           (Character.status_effects (chars w character)).
Proof.
  intros Hnd. unfold process_turn_based_effects.
  set (l := Character.status_effects (chars w character)) in *.
  destruct (tick_effects_nodup character l Hnd w []) as (Hin & _ & Hrem).
  pose proof (tick_effects_character character l w []) as Hc.
  destruct (fold_left (tick_effect character) l (w, [])) as [w1 R].
  cbn zeta in *. cbn [fst snd app] in *.
  assert (HR : R = filter (fun e => StatusEffect.duration (effs w1 e) =? 0) l).
  { rewrite Hrem. apply filter_ext_in. intros e He. now rewrite Hin. }
  destruct (remove_effects_expired character (effs w1) l [] w1)
    as (w' & Hfold & Hse & _);
    [reflexivity | rewrite Hc; reflexivity | intros y [] |].
  rewrite <- HR in Hfold. cbn [app] in Hse.
  destruct (remove_effects_frame character R w1 w' Hfold) as [_ Heffs].
  exists w'. split; [exact Hfold | split].
  - intros e He. now rewrite Heffs, Hin.
  - rewrite Hse. apply filter_ext_in. intros e He. now rewrite Hin.
Qed.

Lemma ticked_disabling (e : StatusEffect.t) :
  disabling (ticked e) = disabling e.
Proof. unfold ticked, disabling. now destruct (0 <? _). Qed.

Lemma ticked_duration_kept (e : StatusEffect.t) :
  StatusEffect.duration (ticked e) <> 0
  <-> StatusEffect.duration e <> 0 /\ StatusEffect.duration e <> 1.
Proof.
  unfold ticked. destruct (0 <? StatusEffect.duration e) eqn:E;
    [apply Z.ltb_lt in E | apply Z.ltb_ge in E]; cbn; lia.
Qed.

(** X15. On a character whose status-effect list holds each effect
    object once, the character is disabled after the round-start pass
    exactly when it carried a stun or freeze whose duration before the
    pass was neither 0 nor 1.  A stun of duration 1 is gone before its
    bearer's turn; one of negative duration is never removed. *)
Theorem disabled_after_the_pass (character : cref) (w : World) :
  NoDup (Character.status_effects (chars w character)) ->
  exists w',
    process_turn_based_effects character w = Some w'
    /\ (is_character_disabled w' character = true <->
        exists e,
          In e (Character.status_effects (chars w character))
          /\ disabling (effs w e) = true
          /\ StatusEffect.duration (effs w e) <> 0
          /\ StatusEffect.duration (effs w e) <> 1).
Proof.
  intros Hnd.
  destruct (process_turn_based_effects_kept character w Hnd)
    as (w' & Hpass & Heffs & Hkept).
  exists w'. split; [exact Hpass |].
  unfold is_character_disabled. rewrite Hkept. fold disabling.
  rewrite existsb_exists. split.
  - intros (e & Hin & Hdis). apply filter_In in Hin as [Hin Hdur].
    exists e. split; [exact Hin |].
    change (disabling (effs w' e) = true) in Hdis.
    rewrite (Heffs e Hin), ticked_disabling in Hdis.
    split; [exact Hdis |]. apply ticked_duration_kept.
    apply negb_true_iff, Z.eqb_neq in Hdur. exact Hdur.
  - intros (e & Hin & Hdis & H0 & H1). exists e. split.
    + apply filter_In. split; [exact Hin |].
      apply negb_true_iff, Z.eqb_neq, ticked_duration_kept. auto.
    + change (disabling (effs w' e) = true).
      now rewrite (Heffs e Hin), ticked_disabling.
Qed.

Lemma disabled_after_the_pass_witness :
  exists w',
    process_turn_based_effects 1 two_effects_world = Some w'
    /\ is_character_disabled two_effects_world 1 = true
    /\ is_character_disabled w' 1 = false.
Proof.
  destruct (disabled_after_the_pass 1 two_effects_world) as (w' & Hpass & Hiff).
  - cbn. repeat constructor; cbn; intuition discriminate.
  - exists w'. split; [exact Hpass | split; [reflexivity |]].
    destruct (is_character_disabled w' 1); [| reflexivity].
    destruct (proj1 Hiff eq_refl) as (e & Hin & Hdis & H0 & H1).
    destruct Hin as [<- | [<- | []]]; cbn in *; congruence.
Defined.

(** ** The AI's choice of action and the turn loop *)

Lemma min_from_spec {A : Type} (key : A -> Z) (rest : list A) :
  forall best,
    In (min_from key best rest) (best :: rest)
    /\ forall x, In x (best :: rest) -> key (min_from key best rest) <= key x.
Proof.
  induction rest as [| y t IH]; intros best; cbn [min_from].
  - split; [now left | intros x [<- | []]; lia].
  - destruct (IH (if key y <? key best then y else best)) as [Hin Hle].
    split.
    + destruct Hin as [Hb | Ht]; [| now right; right].
      rewrite <- Hb. destruct (key y <? key best); [right |]; now left.
    + assert (Hbest : key (min_from key (if key y <? key best then y else best) t)
                      <= key best /\
                      key (min_from key (if key y <? key best then y else best) t)
                      <= key y).
      { specialize (Hle _ (or_introl eq_refl)).
        destruct (key y <? key best) eqn:E;
          [apply Z.ltb_lt in E | apply Z.ltb_ge in E]; lia. }
      intros x [<- | [<- | Hx]]; [lia | lia |].
      apply Hle. now right.
Qed.

Section TurnFacts.
Context {G : Type} `{RandomSource G}.
Variable same_character : World -> cref -> cref -> bool.

Lemma choice_spec {A : Type} (g : G) (seq : list A) :
  seq <> [] -> exists x g', choice g seq = Some (x, g') /\ In x seq.
Proof.
  intros Hne. unfold choice.
  assert (Hlen : (0 < List.length seq)%nat)
    by (destruct seq; [congruence | cbn; lia]).
  pose proof (randbelow_lt g (List.length seq) Hlen) as Hlt.
  destruct (randbelow g (List.length seq)) as [i g']. cbn [fst] in Hlt.
  destruct (nth_error seq i) as [x |] eqn:Ex.
  - exists x, g'. split; [reflexivity | now apply nth_error_In in Ex].
  - apply nth_error_None in Ex. lia.
Qed.

(** X16. [_generate_ai_action] always produces an action for the
    character it was asked about.  It passes exactly when the opposing
    roster has nobody alive; otherwise it aims at a living member of
    that roster none of whose living members has less hp.  It casts a
    skill only from the character's own skills and only when the
    skill's [cost] is within the character's chakra, and it falls back
    to a plain attack only when no skill is.  The opposing roster is
    team A's whenever the character compares equal to a member of team
    B, as every member of team B does. *)
Theorem ai_action_is_aimed_and_affordable (character : cref) (g : G)
  (w : World) :
  let b := battle_state w in
  let enemies :=
    BattleTeam.characters
      (if contains same_character w character
            (BattleTeam.characters (BattleState.team_b b))
       then BattleState.team_a b else BattleState.team_b b) in
  let me := chars w character in
  exists action g',
    generate_ai_action same_character character g w = Some (action, g')
    /\ Action.character action = character
    /\ (Action.action_type action = PASS <->
        forall c, In c enemies -> alive w c = false)
    /\ (Action.action_type action = PASS ->
        Action.target action = None /\ Action.skill action = None /\ g' = g)
    /\ (Action.action_type action <> PASS ->
        exists target,
          Action.target action = Some target
          /\ In target enemies /\ alive w target = true
          /\ forall c, In c enemies -> alive w c = true ->
                       Character.hp (chars w target) <= Character.hp (chars w c))
    /\ (forall skill,
          Action.skill action = Some skill ->
          Action.action_type action = SKILL
          /\ In skill (Character.skills me)
          /\ Skill.cost skill <= Character.chakra me)
    /\ (Action.action_type action = ATTACK ->
        Action.skill action = None
        /\ forall skill, In skill (Character.skills me) ->
                         Character.chakra me < Skill.cost skill)
    /\ (Action.action_type action = SKILL ->
        exists skill, Action.skill action = Some skill)
    /\ (Action.action_type action = PASS \/ Action.action_type action = ATTACK
        \/ Action.action_type action = SKILL)
    /\ ((forall r, same_character w r r = true) ->
        In character (BattleTeam.characters (BattleState.team_b b)) ->
        enemies = BattleTeam.characters (BattleState.team_a b)).
Proof.
  cbn zeta. unfold generate_ai_action.
  set (enemy_team := if contains same_character w character _ then _ else _).
  assert (Hside : (forall r, same_character w r r = true) ->
                  In character
                    (BattleTeam.characters (BattleState.team_b (battle_state w))) ->
                  BattleTeam.characters enemy_team
                  = BattleTeam.characters (BattleState.team_a (battle_state w))).
  { intros Hrefl Hin. subst enemy_team.
    assert (E : contains same_character w character
                  (BattleTeam.characters (BattleState.team_b (battle_state w)))
                = true).
    { apply existsb_exists. exists character. auto. }
    now rewrite E. }
  clearbody enemy_team.
  destruct (filter (alive w) (BattleTeam.characters enemy_team))
    as [| first rest] eqn:Etargets.
  - exists (Action.mk character PASS None None), g. cbn.
    split; [reflexivity | split; [reflexivity |]].
    split.
    { split; [| reflexivity]. intros _ c Hc.
      destruct (alive w c) eqn:Ha; [| reflexivity].
      assert (Hin : In c (filter (alive w) (BattleTeam.characters enemy_team)))
        by (apply filter_In; auto).
      rewrite Etargets in Hin. contradiction. }
    split; [auto |]. split; [congruence |].
    split; [discriminate |]. split; [discriminate |].
    split; [discriminate |]. split; [now left | exact Hside].
  - set (target := min_from (fun c => Character.hp (chars w c)) first rest).
    destruct (min_from_spec (fun c => Character.hp (chars w c)) rest first)
      as [Hmin_in Hmin_le]. fold target in Hmin_in, Hmin_le.
    rewrite <- Etargets in Hmin_in.
    apply filter_In in Hmin_in as [Htarget_in Htarget_alive].
    assert (Hleast : forall c, In c (BattleTeam.characters enemy_team) ->
                               alive w c = true ->
                               Character.hp (chars w target)
                               <= Character.hp (chars w c)).
    { intros c Hc Ha. apply Hmin_le. rewrite <- Etargets.
      apply filter_In. auto. }
    assert (Hsome : ~ (forall c, In c (BattleTeam.characters enemy_team) ->
                                 alive w c = false)).
    { intros Hall. rewrite (Hall target Htarget_in) in Htarget_alive.
      discriminate. }
    assert (Haim : exists t, Some target = Some t
                             /\ In t (BattleTeam.characters enemy_team)
                             /\ alive w t = true
                             /\ forall c, In c (BattleTeam.characters enemy_team) ->
                                          alive w c = true ->
                                          Character.hp (chars w t)
                                          <= Character.hp (chars w c))
      by (exists target; auto).
    clearbody target.
    destruct (filter _ (Character.skills (chars w character)))
      as [| s ss] eqn:Eskills.
    + exists (Action.mk character ATTACK (Some target) None), g. cbn.
      split; [reflexivity | split; [reflexivity |]].
      split; [split; [discriminate | intros Hall; contradiction] |].
      split; [discriminate |]. split; [intros _; exact Haim |].
      split; [discriminate |]. split.
      { intros _. split; [reflexivity |]. intros skill Hskill.
        destruct (Skill.cost skill <=? Character.chakra (chars w character))
          eqn:E; [| apply Z.leb_gt in E; lia].
        assert (Hin : In skill
                        (filter (fun skill =>
                                   Skill.cost skill
                                   <=? Character.chakra (chars w character))
                           (Character.skills (chars w character))))
          by (apply filter_In; auto).
        rewrite Eskills in Hin. contradiction. }
      split; [discriminate |]. split; [right; now left | exact Hside].
    + destruct (choice_spec g (s :: ss)) as (skill & g' & Hchoice & Hin);
        [discriminate |].
      rewrite Hchoice.
      rewrite <- Eskills in Hin. apply filter_In in Hin as [Hown Hcost].
      apply Z.leb_le in Hcost.
      exists (Action.mk character SKILL (Some target) (Some skill)), g'. cbn.
      split; [reflexivity | split; [reflexivity |]].
      split; [split; [discriminate | intros Hall; contradiction] |].
      split; [discriminate |]. split; [intros _; exact Haim |].
      split; [intros sk [= <-]; auto |].
      split; [discriminate |].
      split; [intros _; now exists skill |].
      split; [right; now right | exact Hside].
Qed.
End TurnFacts.

Lemma ai_action_total {G : Type} `{RandomSource G}
  (same_character : World -> cref -> cref -> bool) (character : cref) (g : G)
  (w : World) :
  exists action g',
    generate_ai_action same_character character g w = Some (action, g').
Proof.
  unfold generate_ai_action.
  destruct (filter (alive w) _) as [| first rest]; [eauto |].
  destruct (filter _ (Character.skills (chars w character)))
    as [| s ss] eqn:Eskills; [eauto |].
  destruct (choice_spec g (s :: ss)) as (skill & g' & -> & _);
    [discriminate | eauto].
Qed.

(** A round prepared while the battle is not over has an actor under
    the cursor, and the battle is still not over. *)
Lemma prepare_new_round_current {G : Type} `{RandomSource G} (g : G)
  (w : World) :
  is_battle_over w = false ->
  exists w' g' first,
    prepare_new_round g w = Some (w', g')
    /\ get_current_character w' = Some first
    /\ is_battle_over w' = false
    /\ engine_frame w w'.
Proof.
  intros Hno.
  destruct (prepare_new_round_frame g w) as (w' & g' & Hprep & Hf & Hal & _).
  destruct (prepare_new_round_steps g w) as (w3 & Hprep3 & Hf3).
  set (w1 := set_battle_state _ w) in Hf3.
  assert (H1 : BattleState.team_a (battle_state w1)
               = BattleState.team_a (battle_state w)
               /\ BattleState.team_b (battle_state w1)
                  = BattleState.team_b (battle_state w)
               /\ chars w1 = chars w) by (subst w1; cbn; auto).
  destruct H1 as (Hta & Htb & Hc1). clearbody w1.
  destruct (round_frame_engine w1 w3 Hf3) as [_ Hal3].
  destruct (not_over_has_living w Hno) as [(a & Ha & Haa) _].
  destruct (calculate_turn_order_first g (emit on_round_start w3))
    as (first & Hcur & _).
  { exists a. split.
    - unfold roster. cbn. rewrite (round_battle_state _ _ Hf3), Hta.
      apply in_or_app. now left.
    - change (alive w3 a = true). rewrite Hal3. unfold alive in *.
      now rewrite Hc1. }
  rewrite Hprep in Hprep3. injection Hprep3 as Hw'.
  apply (f_equal fst) in Hw'. cbn [fst] in Hw'.
  exists w', g', first. split; [exact Hprep |].
  split; [| split; [| exact Hf]].
  - rewrite Hw'. exact Hcur.
  - rewrite <- Hno. apply is_battle_over_congr;
      [apply (engine_team_a _ _ Hf) | apply (engine_team_b _ _ Hf) | exact Hal].
Qed.

Lemma ai_action_is_aimed_and_affordable_witness :
  exists action g',
    generate_ai_action same_reference 1%nat 0%nat skilled_world
    = Some (action, g')
    /\ Action.character action = 1%nat
    /\ BattleTeam.characters
         (if contains same_reference skilled_world 1%nat
               (BattleTeam.characters
                  (BattleState.team_b (battle_state skilled_world)))
          then BattleState.team_a (battle_state skilled_world)
          else BattleState.team_b (battle_state skilled_world))
       = BattleTeam.characters (BattleState.team_a (battle_state skilled_world)).
Proof.
  destruct (ai_action_is_aimed_and_affordable same_reference 1%nat 0%nat
              skilled_world)
    as (action & g' & Hgen & Hwho & _ & _ & _ & _ & _ & _ & _ & Hside).
  exists action, g'. split; [exact Hgen | split; [exact Hwho |]].
  apply Hside.
  - intros r. apply Nat.eqb_refl.
  - cbn. now left.
Defined.

Section TurnLoopFacts.
Context {G : Type} `{RandomSource G}.
Variable same_character : World -> cref -> cref -> bool.

(** X17. A skill with a positive [cost] that the AI chose is always
    resolved successfully and paid in full: the caster's chakra goes
    down by exactly the cost and stays non-negative, with no clamping. *)
Theorem ai_skill_is_paid_in_full (character : cref) (g g' : G) (w : World)
  (action : Action.t) (skill : Skill.t) :
  generate_ai_action same_character character g w = Some (action, g') ->
  Action.skill action = Some skill ->
  0 < Skill.cost skill ->
  let out := resolve action w in
  ActionResult.success (snd out) = true
  /\ Character.chakra (chars (fst out) character)
     = Character.chakra (chars w character) - Skill.cost skill
  /\ 0 <= Character.chakra (chars (fst out) character).
Proof.
  intros Hgen Hskill Hpos. cbn zeta. unfold generate_ai_action in Hgen.
  set (enemy_team := if contains same_character w character _ then _ else _)
    in Hgen. clearbody enemy_team.
  destruct (filter (alive w) (BattleTeam.characters enemy_team))
    as [| first rest] eqn:Etargets.
  { injection Hgen as <- _. discriminate. }
  destruct (min_from_spec (fun c => Character.hp (chars w c)) rest first)
    as [Hmin_in _].
  set (target := min_from _ first rest) in *.
  rewrite <- Etargets in Hmin_in. apply filter_In in Hmin_in as [_ Halive].
  clearbody target.
  destruct (filter _ (Character.skills (chars w character)))
    as [| s ss] eqn:Eskills.
  { injection Hgen as <- _. discriminate. }
  destruct (choice_spec g (s :: ss)) as (sk & g1 & Hchoice & Hin);
    [discriminate |].
  rewrite Hchoice in Hgen. injection Hgen as <- _.
  cbn in Hskill. injection Hskill as ->.
  rewrite <- Eskills in Hin. apply filter_In in Hin as [_ Hcost].
  apply Z.leb_le in Hcost.
  set (action := Action.mk character SKILL (Some target) (Some skill)).
  unfold resolve. cbn [Action.action_type action].
  destruct (execute_skill_resolved action (ActionResult.new action) w skill
              target eq_refl eq_refl Halive) as [_ Hok].
  pose proof (execute_skill_resolved_chakra action (ActionResult.new action) w
                skill target eq_refl eq_refl Halive) as Hch.
  cbn [Action.character action] in Hch.
  rewrite (skill_cost_positive skill Hpos) in Hch.
  split; [exact Hok |]. rewrite Hch by lia. lia.
Qed.

Lemma process_turn_unfold (depth : nat) (g : G) (w : World) :
  process_turn same_character (S depth) g w
  = if is_battle_over w then Some (emit on_battle_end w, g, true)
    else
      match get_current_character w with
      | None =>
          '(w1, g1) <- prepare_new_round g w ;;
          process_turn same_character depth g1 w1
      | Some current_character =>
          if is_character_disabled w current_character
          then next_turn g (emit (on_turn_skipped current_character) w)
          else if negb (Character.is_player_controlled
                          (chars w current_character))
          then
            '(action, g1) <- generate_ai_action same_character
                               current_character g w ;;
            execute_action action g1 w
          else Some (w, g, false)
      end.
Proof. reflexivity. Qed.

(** With an actor under the cursor, [process_turn] does not call
    itself. *)
Lemma process_turn_with_actor (depth : nat) (g : G) (w : World) (c : cref) :
  is_battle_over w = false ->
  get_current_character w = Some c ->
  exists w' g' over,
    process_turn same_character (S depth) g w = Some (w', g', over)
    /\ over = is_battle_over w'
    /\ engine_frame w w'.
Proof.
  intros Hno Hcur. rewrite process_turn_unfold, Hno, Hcur.
  destruct (is_character_disabled w c).
  - destruct (next_turn_spec g (emit (on_turn_skipped c) w))
      as (w' & g' & Hn & Ho & Hf).
    exists w', g', (is_battle_over (emit (on_turn_skipped c) w)).
    split; [exact Hn | split; [now rewrite Ho |]].
    eapply engine_frame_trans; [apply emit_engine_frame | exact Hf].
  - destruct (negb _).
    + destruct (ai_action_total same_character c g w) as (action & g1 & ->).
      apply execute_action_spec.
    + exists w, g, false. split; [reflexivity | split; [now rewrite Hno |]].
      apply engine_frame_refl.
Qed.

(** X18. Given room for two calls, [process_turn] always returns: it
    calls itself at most once, after preparing a round, because a
    prepared round of a battle that is not over has an actor under the
    cursor.  Its flag is [is_battle_over] of the world it leaves, which
    stays within the frame of the engine.  When the battle is already
    over it only announces the end; when the actor under the cursor is
    player-controlled and free to act it changes nothing and answers
    false. *)
Theorem process_turn_returns (depth : nat) (g : G) (w : World) :
  (2 <= depth)%nat ->
  exists w' g' over,
    process_turn same_character depth g w = Some (w', g', over)
    /\ over = is_battle_over w'
    /\ engine_frame w w'
    /\ (is_battle_over w = true ->
        w' = emit on_battle_end w /\ g' = g /\ over = true)
    /\ (forall c,
          is_battle_over w = false ->
          get_current_character w = Some c ->
          is_character_disabled w c = false ->
          Character.is_player_controlled (chars w c) = true ->
          w' = w /\ g' = g /\ over = false).
Proof.
  intros Hdepth. destruct depth as [| [| depth]]; try lia.
  destruct (is_battle_over w) eqn:Hover.
  - exists (emit on_battle_end w), g, true.
    rewrite process_turn_unfold, Hover.
    split; [reflexivity | split; [exact (eq_sym Hover) |]].
    split; [apply emit_engine_frame | split; [auto | discriminate]].
  - destruct (get_current_character w) as [c |] eqn:Hcur.
    + destruct (process_turn_with_actor (S depth) g w c Hover Hcur)
        as (w' & g' & over & Hp & Ho & Hf).
      exists w', g', over. split; [exact Hp | split; [exact Ho |]].
      split; [exact Hf | split; [discriminate |]].
      intros c' _ [= <-] Hfree Hplayer.
      rewrite process_turn_unfold, Hover, Hcur, Hfree, Hplayer in Hp.
      cbn in Hp. now injection Hp as <- <- <-.
    + destruct (prepare_new_round_current g w Hover)
        as (w1 & g1 & first & Hprep & Hcur1 & Hno1 & Hf1).
      destruct (process_turn_with_actor depth g1 w1 first Hno1 Hcur1)
        as (w' & g' & over & Hp & Ho & Hf).
      exists w', g', over.
      rewrite process_turn_unfold, Hover, Hcur, Hprep.
      split; [exact Hp | split; [exact Ho |]].
      split; [eapply engine_frame_trans; eauto |].
      split; [discriminate | intros c' _ Hc'; discriminate].
Qed.
End TurnLoopFacts.

Lemma ai_skill_is_paid_in_full_witness :
  0 < Skill.cost test_skill
  /\ Character.chakra
       (chars
          (fst (resolve
                  (Action.mk 0%nat SKILL (Some 1%nat) (Some test_skill))
                  skilled_world)) 0%nat)
     = Character.chakra (chars skilled_world 0%nat) - Skill.cost test_skill.
Proof.
  split; [reflexivity |].
  refine (proj1 (proj2
            (ai_skill_is_paid_in_full same_reference 0%nat 0%nat _
               skilled_world
               (Action.mk 0%nat SKILL (Some 1%nat) (Some test_skill))
               test_skill _ _ _))); reflexivity.
Defined.

Lemma process_turn_returns_witness :
  (2 <= 2)%nat
  /\ exists w' g' over,
       process_turn same_reference 2 0%nat test_world = Some (w', g', over)
       /\ over = is_battle_over w'
       /\ engine_frame test_world w'.
Proof.
  split; [apply le_n |].
  destruct (process_turn_returns same_reference 2 0%nat test_world (le_n 2))
    as (w' & g' & over & Hp & Ho & Hf & _).
  exists w', g', over. split; [exact Hp | split; [exact Ho | exact Hf]].
Defined.
